(** * go-blockchain: blocks, proof of work, serialization and the persisted chain

    A shallow embedding of [blockchain/block.go], and of the chain as the
    two versions before the database kept it in memory, and properties of
    them.

    - Go's [[]byte] is [list byte]; a nil slice and an empty slice are both
      the empty list, as [bytes.Equal] and [len] see them.
    - Go's [int] and [int64] are [Z]; the ranges are stated where they
      matter ([int] is 64 bits wide: [maxNonce := math.MaxInt64] is
      assigned to an [int]).
    - [time.Now().Unix()] is an explicit argument [now] of the functions
      that read the clock.
    - The bolt database is a finite map from bucket names to buckets, a
      bucket a finite map from keys to values; transactions are functions
      on that map, committed or rolled back as a whole.
    - [log.Fatal] ends the process: functions that can reach it return an
      [outcome], [Fatal] standing for the abort.
    - Console output ([fmt.Printf]) is not modelled. *)

From Stdlib Require Import ZArith NArith List Lia String Ascii.
From Stdlib.Strings Require Import Byte.
From Stdlib Require Import DecimalString DecimalZ DecimalPos.
From stdpp Require Import base option list countable gmap fin_maps.

Local Open Scope Z_scope.

(** ** Bytes *)

Abbreviation bytes := (list byte).

Definition byte_to_Z (b : byte) : Z := Z.of_N (Byte.to_N b).

Definition byte_of_Z (z : Z) : byte :=
  match Byte.of_N (Z.to_N (z mod 256)) with
  | Some b => b
  | None => x00
  end.

(** [[]byte(s)] for a Go string [s]. *)
Definition bytes_of_string (s : string) : bytes := list_byte_of_string s.

(** The [n] low bytes of [x], most significant first. *)
Fixpoint be_bytes (n : nat) (x : Z) : bytes :=
  match n with
  | O => []
  | S k => byte_of_Z (Z.shiftr x (8 * Z.of_nat k)) :: be_bytes k x
  end.

(** The unsigned integer that [bs] spells in base 256, most significant
    byte first. *)
Definition be_uint (bs : bytes) : Z :=
  fold_left (fun acc b => acc * 256 + byte_to_Z b) bs 0.

(** ** crypto/sha256

    [Sum256] of Go's standard library, written out from FIPS 180-4: 32-bit
    words are [Z] reduced modulo [2^32]. *)

Module sha256.

Definition Size : nat := 32.

Definition mask32 : Z := 0xffffffff.
Definition w32 (x : Z) : Z := Z.land x mask32.
Definition add32 (x y : Z) : Z := w32 (x + y).
Definition not32 (x : Z) : Z := Z.lxor x mask32.
Definition rotr (n x : Z) : Z := Z.lor (Z.shiftr x n) (w32 (Z.shiftl x (32 - n))).
Definition shr (n x : Z) : Z := Z.shiftr x n.

Definition Ch (x y z : Z) : Z := Z.lxor (Z.land x y) (Z.land (not32 x) z).
Definition Maj (x y z : Z) : Z :=
  Z.lxor (Z.lxor (Z.land x y) (Z.land x z)) (Z.land y z).
Definition Sigma0 (x : Z) : Z := Z.lxor (Z.lxor (rotr 2 x) (rotr 13 x)) (rotr 22 x).
Definition Sigma1 (x : Z) : Z := Z.lxor (Z.lxor (rotr 6 x) (rotr 11 x)) (rotr 25 x).
Definition sigma0 (x : Z) : Z := Z.lxor (Z.lxor (rotr 7 x) (rotr 18 x)) (shr 3 x).
Definition sigma1 (x : Z) : Z := Z.lxor (Z.lxor (rotr 17 x) (rotr 19 x)) (shr 10 x).

(** The constants are given by their definition in the standard: the first
    32 bits of the fractional parts of the cube roots of the first 64
    primes, and of the square roots of the first 8 primes. *)

Definition is_prime (p : Z) : bool :=
  (1 <? p) && forallb (fun d => negb (p mod Z.of_nat d =? 0)) (seq 2 (Z.to_nat p - 2)).

Definition primes (count : nat) : list Z :=
  firstn count (List.filter is_prime (map Z.of_nat (seq 2 400))).

(** The largest [r] with [r^3 <= n], between [lo] and [hi], by bisection. *)
Fixpoint cbrt_between (steps : nat) (lo hi n : Z) : Z :=
  match steps with
  | O => lo
  | S k =>
      let mid := (lo + hi) / 2 in
      if mid * mid * mid <=? n then cbrt_between k mid hi n
      else cbrt_between k lo mid n
  end.

Definition frac_cbrt32 (p : Z) : Z := cbrt_between 40 0 (2 ^ 40) (p * 2 ^ 96) mod 2 ^ 32.
Definition frac_sqrt32 (p : Z) : Z := Z.sqrt (p * 2 ^ 64) mod 2 ^ 32.

Definition K : list Z := Eval vm_compute in map frac_cbrt32 (primes 64).

Definition init : list Z := Eval vm_compute in map frac_sqrt32 (primes 8).

(** The message followed by the bit 1, zeros, and its length in bits on
    64 bits, to a multiple of 64 bytes. *)
Definition pad (msg : bytes) : bytes :=
  let len := Z.of_nat (length msg) in
  let zeros := Z.to_nat ((55 - len) mod 64) in
  msg ++ x80 :: repeat x00 zeros ++ be_bytes 8 (8 * len).

Fixpoint words (n : nat) (bs : bytes) : list Z :=
  match n with
  | O => []
  | S k => be_uint (firstn 4 bs) :: words k (skipn 4 bs)
  end.

(** The message schedule, latest word first: [rev_w] holds W[t-1], W[t-2], ... *)
Fixpoint schedule (n : nat) (rev_w : list Z) : list Z :=
  match n with
  | O => rev_w
  | S k =>
      let w := add32 (add32 (sigma1 (nth 1 rev_w 0)) (nth 6 rev_w 0))
                     (add32 (sigma0 (nth 14 rev_w 0)) (nth 15 rev_w 0)) in
      schedule k (w :: rev_w)
  end.

Definition round (st : list Z) (kw : Z * Z) : list Z :=
  match st with
  | [a; b; c; d; e; f; g; h] =>
      let t1 := add32 (add32 (add32 h (Sigma1 e)) (add32 (Ch e f g) (fst kw))) (snd kw) in
      let t2 := add32 (Sigma0 a) (Maj a b c) in
      [add32 t1 t2; a; b; c; add32 d t1; e; f; g]
  | _ => st
  end.

Definition block (H : list Z) (chunk : bytes) : list Z :=
  let w := rev (schedule 48 (rev (words 16 chunk))) in
  let st := fold_left round (combine K w) H in
  map (fun p => add32 (fst p) (snd p)) (combine H st).

Fixpoint blocks (n : nat) (H : list Z) (bs : bytes) : list Z :=
  match n with
  | O => H
  | S k => blocks k (block H (firstn 64 bs)) (skipn 64 bs)
  end.

(** The eight words of the last chaining value, each on four bytes. *)
Definition Sum256 (data : bytes) : bytes :=
  let p := pad data in
  let h := blocks (Nat.div (length p) 64) init p in
  flat_map (fun i => be_bytes 4 (nth i h 0)) (seq 0 8).

End sha256.

Definition hex_digit (n : Z) : ascii :=
  nth (Z.to_nat n) (list_ascii_of_string "0123456789abcdef") "0"%char.

(** [fmt.Sprintf("%x", bs)]. *)
Definition hex (bs : bytes) : string :=
  string_of_list_ascii
    (flat_map (fun b => [hex_digit (byte_to_Z b / 16); hex_digit (byte_to_Z b mod 16)]) bs).

(** ** strconv and math/big *)

Module strconv.

(** [strconv.FormatInt(i, 10)]: the decimal digits of [i], with a leading
    minus sign when [i] is negative. *)
Definition FormatInt (i : Z) : string := NilZero.string_of_int (Z.to_int i).

End strconv.

Module big.

(** [z.SetBytes(buf)]: [buf] read as a big-endian unsigned integer. *)
Definition SetBytes (buf : bytes) : Z := be_uint buf.

(** [z.Lsh(x, n)]. *)
Definition Lsh (x : Z) (n : Z) : Z := Z.shiftl x n.

(** [x.Cmp(y)]: -1, 0 or +1. *)
Definition Cmp (x y : Z) : Z :=
  match x ?= y with
  | Lt => -1
  | Eq => 0
  | Gt => 1
  end.

End big.

(** ** Errors and outcomes *)

(** A Go [error], by its message. *)
Definition error := string.

(** How a call ends: it returns a value ([Ok], the error outcome being nil
    where there is one), it returns an error ([Err]), or it reaches
    [log.Fatal], which logs the error and ends the process ([Fatal]). *)
Inductive outcome (A : Type) : Type :=
  | Ok (a : A)
  | Err (e : error)
  | Fatal (e : error).
Arguments Ok {A} a.
Arguments Err {A} e.
Arguments Fatal {A} e.

#[global] Instance outcome_ret : MRet outcome := fun A a => Ok a.
#[global] Instance outcome_bind : MBind outcome := fun A B f m =>
  match m with
  | Ok a => f a
  | Err e => Err e
  | Fatal e => Fatal e
  end.

(** [if err != nil { log.Fatal(err) }] after a call. *)
Definition fatal {A : Type} (m : outcome A) : outcome A :=
  match m with
  | Err e => Fatal e
  | _ => m
  end.

Module io.
Definition EOF : error := "EOF"%string.
Definition ErrUnexpectedEOF : error := "unexpected EOF"%string.
End io.

(** ** The block *)

Record Block : Type := mkBlock {
  Timestamp : Z;
  Data : bytes;
  PrevBlockHash : bytes;
  Hash : bytes;
  Nonce : Z
}.

Definition MaxInt64 : Z := 9223372036854775807.
Definition MinInt64 : Z := -9223372036854775808.

Definition int64 (i : Z) : Prop := MinInt64 <= i <= MaxInt64.

(** Values of the Go type [Block]: both integer fields on 64 bits. *)
Definition well_typed (b : Block) : Prop := int64 (Timestamp b) /\ int64 (Nonce b).

#[global] Instance byte_eq_dec : EqDecision byte := Byte.byte_eq_dec.

#[global] Program Instance byte_countable : Countable byte :=
  inj_countable Byte.to_N Byte.of_N _.
Next Obligation. intros b. apply Byte.of_to_N. Qed.

(** ** encoding/gob, for the type [Block]

    What [gob.NewEncoder(w).Encode(b)] writes for a [*Block], and what
    [gob.NewDecoder(r).Decode(&block)] makes of it, following the wire
    format of the package documentation: a stream of messages, each an
    unsigned byte count and that many bytes; the first carries the
    description of the struct type under the negated type id, the second the
    value under the type id. Fields with the zero value are not sent; a
    struct is a sequence of (field number delta, value) closed by a zero
    delta.

    The decoder here accepts the description of [Block] that the encoder
    sends, byte for byte; Go's decoder matches fields by name and so accepts
    other descriptions too. *)

Module gob.

Definition uint64Size : Z := 8.

(** The cap on the size of a message and of a slice, [(1 << 30) << 3] where
    [uint] has 64 bits. *)
Definition tooBig : Z := 2 ^ 33.

(** Number of bytes of [x > 0] without leading zero bytes. *)
Definition byteLen (x : Z) : Z := Z.log2 x / 8 + 1.

(** An unsigned integer: below 128 one byte; otherwise the negated byte
    count in one byte, then the bytes, most significant first. *)
Definition encodeUint (x : Z) : bytes :=
  if x <=? 0x7F then [byte_of_Z x]
  else byte_of_Z (- byteLen x) :: be_bytes (Z.to_nat (byteLen x)) x.

(** A signed integer [i] inside an unsigned one: bit 0 says whether the
    rest is complemented. *)
Definition encodeInt (i : Z) : bytes :=
  encodeUint (if i <? 0 then Z.lor (Z.shiftl (Z.lnot i) 1) 1 else Z.shiftl i 1).

Inductive value : Type :=
  | Int (i : Z)
  | Bytes (b : bytes).

Definition isZero (v : value) : bool :=
  match v with
  | Int i => i =? 0
  | Bytes b => (length b =? 0)%nat
  end.

Definition encodeValue (v : value) : bytes :=
  match v with
  | Int i => encodeInt i
  | Bytes b => encodeUint (Z.of_nat (length b)) ++ b
  end.

(** [encodeStruct]: the fields in order, each non-zero one as the delta to
    its field number and its value; then the terminator. [fieldnum] is the
    number of the last field sent, -1 at the start. *)
Fixpoint encodeStruct (fieldnum : Z) (fields : list (Z * value)) : bytes :=
  match fields with
  | [] => encodeUint 0
  | (i, v) :: rest =>
      if isZero v then encodeStruct fieldnum rest
      else encodeUint (i - fieldnum) ++ encodeValue v ++ encodeStruct i rest
  end.

Definition fields (b : Block) : list (Z * value) :=
  [ (0, Int (Timestamp b)); (1, Bytes (Data b)); (2, Bytes (PrevBlockHash b));
    (3, Bytes (Hash b)); (4, Int (Nonce b)) ].

(** Type ids: [int] and [int64] travel as type 2, [[]byte] as type 5; the
    first type a program registers gets 65. *)
Definition tInt : Z := 2.
Definition tBytes : Z := 5.
Definition blockId : Z := 65.

(** A [fieldType] or [CommonType] value: a name and a type id. *)
Definition encodeNameId (name : string) (id : Z) : bytes :=
  encodeStruct (-1) [ (0, Bytes (bytes_of_string name)); (1, Int id) ].

(** The [wireType] value describing [Block]: field 2 ([StructT]) holds a
    [structType], that is a [CommonType] and the slice of [fieldType]. *)
Definition wireType_Block : bytes :=
  encodeUint 3 ++
    (encodeUint 1 ++ encodeNameId "Block" blockId ++
     encodeUint 1 ++ encodeUint 5 ++
       encodeNameId "Timestamp" tInt ++
       encodeNameId "Data" tBytes ++
       encodeNameId "PrevBlockHash" tBytes ++
       encodeNameId "Hash" tBytes ++
       encodeNameId "Nonce" tInt ++
     encodeUint 0) ++
  encodeUint 0.

Definition errTooBig : error := "gob: encoder: message too big"%string.

(** [writeMessage]: the byte count, then the message. *)
Definition writeMessage (message : bytes) : outcome bytes :=
  if Z.of_nat (length message) >=? tooBig then Err errTooBig
  else Ok (encodeUint (Z.of_nat (length message)) ++ message).

(** [Encode] of a [*Block] on a fresh encoder: the description of the type,
    then the value. *)
Definition Encode (b : Block) : outcome bytes :=
  typ ← writeMessage (encodeInt (- blockId) ++ wireType_Block);
  val ← writeMessage (encodeInt blockId ++ encodeStruct (-1) (fields b));
  Ok (typ ++ val).

Definition errBadCount : error := "invalid message length"%string.
Definition errBadUint : error := "gob: encoded unsigned integer out of range"%string.
Definition errRange : error := "gob: bad data: field numbers out of bounds"%string.
Definition errBadType : error := "gob: unknown type id or corrupted data"%string.
Definition errBadData : error := "gob: bad data"%string.

(** [decodeUint]: one unsigned integer off the front of [b]; [empty] is the
    error when there is no byte to read. *)
Definition decodeUint (empty : error) (b : bytes) : outcome (Z * bytes) :=
  match b with
  | [] => Err empty
  | c :: rest =>
      if byte_to_Z c <=? 0x7f then Ok (byte_to_Z c, rest)
      else
        let n := 256 - byte_to_Z c in
        if n >? uint64Size then Err errBadUint
        else if Z.of_nat (length rest) <? n then Err io.ErrUnexpectedEOF
        else Ok (be_uint (take (Z.to_nat n) rest), drop (Z.to_nat n) rest)
  end.

Definition decodeInt (b : bytes) : outcome (Z * bytes) :=
  '(x, rest) ← decodeUint io.EOF b;
  Ok (if Z.testbit x 0 then Z.lnot (Z.shiftr x 1) else Z.shiftr x 1, rest).

(** The decoding instruction of each field of [Block], by field number. *)
Inductive kind : Type := KInt | KBytes.
Definition instr : list kind := [KInt; KBytes; KBytes; KBytes; KInt].

Definition decodeValue (k : kind) (b : bytes) : outcome (value * bytes) :=
  match k with
  | KInt => '(i, rest) ← decodeInt b; Ok (Int i, rest)
  | KBytes =>
      '(n, rest) ← decodeUint io.EOF b;
      if (n >? MaxInt64) || (Z.of_nat (length rest) <? n) || (tooBig <=? n)
      then Err errBadData
      else Ok (Bytes (take (Z.to_nat n) rest), drop (Z.to_nat n) rest)
  end.

(** [decodeStruct]: while bytes remain, a delta and, unless it is zero, the
    value of the field it leads to. Every round consumes a byte, so the
    length of the input bounds the number of rounds. *)
Fixpoint decodeStruct (rounds : nat) (fieldnum : Z) (b : bytes)
  : outcome (list (Z * value)) :=
  match rounds, b with
  | O, _ | _, [] => Ok []
  | S rounds, _ =>
      '(delta, rest) ← decodeUint io.EOF b;
      if delta >? MaxInt64 then Err errBadData
      else if delta =? 0 then Ok []
      else if fieldnum >=? Z.of_nat (length instr) - delta then Err errRange
      else
        let fieldnum := fieldnum + delta in
        match instr !! Z.to_nat fieldnum with
        | None => Err errRange
        | Some k =>
            '(v, rest) ← decodeValue k rest;
            vs ← decodeStruct rounds fieldnum rest;
            Ok ((fieldnum, v) :: vs)
        end
  end.

(** Storing a decoded field into the block. *)
Definition setField (blk : Block) (fv : Z * value) : Block :=
  match fv with
  | (0, Int i) => mkBlock i (Data blk) (PrevBlockHash blk) (Hash blk) (Nonce blk)
  | (1, Bytes b) => mkBlock (Timestamp blk) b (PrevBlockHash blk) (Hash blk) (Nonce blk)
  | (2, Bytes b) => mkBlock (Timestamp blk) (Data blk) b (Hash blk) (Nonce blk)
  | (3, Bytes b) => mkBlock (Timestamp blk) (Data blk) (PrevBlockHash blk) b (Nonce blk)
  | (4, Int i) => mkBlock (Timestamp blk) (Data blk) (PrevBlockHash blk) (Hash blk) i
  | _ => blk
  end.

(** One message off the stream: its bytes and the rest of the stream. *)
Definition recvMessage (empty : error) (r : bytes) : outcome (bytes * bytes) :=
  '(nbytes, r) ← decodeUint empty r;
  if nbytes >=? tooBig then Err errBadCount
  else if Z.of_nat (length r) <? nbytes then Err io.ErrUnexpectedEOF
  else Ok (take (Z.to_nat nbytes) r, drop (Z.to_nat nbytes) r).

(** [Decode] into [blk], a [Block]: the type description, then the value.
    An empty stream gives [io.EOF]. *)
Definition Decode (r : bytes) (blk : Block) : outcome Block :=
  '(msg, r) ← recvMessage io.EOF r;
  '(id, body) ← decodeInt msg;
  if (id =? - blockId) && bool_decide (body = wireType_Block) then
    '(msg, r) ← recvMessage io.ErrUnexpectedEOF r;
    '(id, body) ← decodeInt msg;
    if id =? blockId then
      vs ← decodeStruct (length body) (-1) body;
      Ok (foldl setField blk vs)
    else Err errBadType
  else Err errBadType.

End gob.

(** ** github.com/boltdb/bolt

    The database as the transactions of [block.go] see it: buckets by name,
    each a map from keys to values. A bucket handle is the bucket's name in
    the transaction. *)

Module bolt.

Abbreviation Tx := (gmap bytes (gmap bytes bytes)).
Abbreviation DB := (gmap bytes (gmap bytes bytes)).

Definition MaxKeySize : Z := 32768.
Definition MaxValueSize : Z := 2147483646.

Definition ErrBucketExists : error := "bucket already exists"%string.
Definition ErrBucketNameRequired : error := "bucket name required"%string.
Definition ErrKeyRequired : error := "key required"%string.
Definition ErrKeyTooLarge : error := "key too large"%string.
Definition ErrValueTooLarge : error := "value too large"%string.

(** [tx.Bucket(name)]: the bucket, [None] for Go's nil when there is none. *)
Definition Bucket (tx : Tx) (name : bytes) : option (gmap bytes bytes) := tx !! name.

(** [tx.CreateBucket(name)]. *)
Definition CreateBucket (tx : Tx) (name : bytes) : outcome Tx :=
  match tx !! name with
  | Some _ => Err ErrBucketExists
  | None => if (length name =? 0)%nat then Err ErrBucketNameRequired
            else Ok (<[name := ∅]> tx)
  end.

(** [b.Get(key)]: the value, nil when the key is absent. *)
Definition Get (b : gmap bytes bytes) (key : bytes) : bytes := default [] (b !! key).

(** [b.Put(key, value)] on the bucket [name] of a writable transaction: the
    value of an existing key is overwritten. *)
Definition Put (tx : Tx) (name key value : bytes) : outcome Tx :=
  if (length key =? 0)%nat then Err ErrKeyRequired
  else if Z.of_nat (length key) >? MaxKeySize then Err ErrKeyTooLarge
  else if Z.of_nat (length value) >? MaxValueSize then Err ErrValueTooLarge
  else Ok (<[name := <[key := value]> (default ∅ (tx !! name))]> tx).

(** [db.View(fn)]: [fn] reads the database and cannot change it. *)
Definition View {A : Type} (fn : Tx -> outcome A) (db : DB) : outcome A := fn db.

(** [db.Update(fn)]: what [fn] wrote is committed as a whole when [fn]
    returns nil; when it returns an error nothing is written and the error
    is returned. The result carries the database after the call and what
    [fn] assigned to the variables it captured. *)
Definition Update {A : Type} (fn : Tx -> outcome (Tx * A)) (db : DB) : outcome (DB * A) :=
  fn db.

End bolt.

(** ** blockchain/block.go *)

(** The digest: [sha256.Sum256], of type [func([]byte) [32]byte]. *)
Class Hasher : Type := {
  Sum256 : bytes -> bytes;
  Sum256_size : forall data, length (Sum256 data) = 32%nat
}.

(** [bytes.Join(s, sep)]. *)
Fixpoint bytes_Join (s : list bytes) (sep : bytes) : bytes :=
  match s with
  | [] => []
  | [x] => x
  | x :: rest => x ++ sep ++ bytes_Join rest sep
  end.

Definition targetBits : Z := 24.
Definition dbFile : string := "blockstore.db".
Definition blocksBucket : bytes := bytes_of_string "Blocks".

Record Blockchain : Type := mkBlockchain { tip : bytes }.
Record ProofOfWork : Type := mkProofOfWork { block : Block; target : Z }.
Record BlockchainIterator : Type := mkIterator { currentHash : bytes }.

Definition maxNonce : Z := MaxInt64.

Definition NewProofOfWork (b : Block) : ProofOfWork :=
  let target := 1 in
  let target := big.Lsh target (256 - targetBits) in
  mkProofOfWork b target.

Definition prepareData (pow : ProofOfWork) (nonce : Z) : bytes :=
  bytes_Join
    [ PrevBlockHash (block pow);
      Data (block pow);
      bytes_of_string (strconv.FormatInt (Timestamp (block pow)));
      bytes_of_string (strconv.FormatInt nonce);
      bytes_of_string (strconv.FormatInt targetBits) ]
    [].

Definition Serialize (b : Block) : outcome bytes :=
  fatal (gob.Encode b).

Definition DeseralizeBlock (d : bytes) : outcome Block :=
  let block := mkBlock 0 [] [] [] 0 in
  fatal (gob.Decode d block).

Section WithHasher.
Context {H : Hasher}.

(** One round of the loop of [Run] at [nonce], [hash] being the digest of
    the round before; [continue] is the rest of the loop. *)
Definition Run_round (pow : ProofOfWork) (continue : Z -> bytes -> Z * bytes)
    (nonce : Z) (hash : bytes) : Z * bytes :=
  if nonce <? maxNonce then
    let data := prepareData pow nonce in
    let hash := Sum256 data in
    let hashInt := big.SetBytes hash in
    if big.Cmp hashInt (target pow) =? -1 then (nonce, hash)
    else continue (nonce + 1) hash
  else (nonce, hash).

(** The loop of [Run] from [nonce]: [2^n] rounds, then [continue]. A round
    that ends the loop ends the rounds after it too. *)
Fixpoint Run_loop (pow : ProofOfWork) (n : nat) (continue : Z -> bytes -> Z * bytes)
    (nonce : Z) (hash : bytes) : Z * bytes :=
  match n with
  | O => Run_round pow continue nonce hash
  | S n => Run_loop pow n (Run_loop pow n continue) nonce hash
  end.

(** The loop from [nonce] on: [2^63] rounds are more than the nonces below
    [maxNonce], so the loop has ended before they are used up. *)
Definition Run_from (pow : ProofOfWork) (nonce : Z) (hash : bytes) : Z * bytes :=
  Run_loop pow 63 (fun nonce hash => (nonce, hash)) nonce hash.

Definition Run (pow : ProofOfWork) : Z * bytes :=
  let hash := repeat x00 32 in
  let nonce := 0 in
  Run_from pow nonce hash.

Definition Validate (pow : ProofOfWork) : bool :=
  let data := prepareData pow (Nonce (block pow)) in
  let hash := Sum256 data in
  let hashInt := big.SetBytes hash in
  let isValid := big.Cmp hashInt (target pow) =? -1 in
  isValid.

(** [now] is what [time.Now().Unix()] returns. *)
Definition NewBlock (now : Z) (data : string) (prevBlockHash : bytes) : Block :=
  let block := mkBlock now (bytes_of_string data) prevBlockHash [] 0 in
  let pow := NewProofOfWork block in
  let '(nonce, hash) := Run pow in
  mkBlock (Timestamp block) (Data block) (PrevBlockHash block) hash nonce.

Definition NewGenesisBlock (now : Z) : Block := NewBlock now "Genesis Block" [].

(** [bc.AddBlock(data)] on the database [db]: the chain handle and the
    database after the call. *)
Definition AddBlock (now : Z) (data : string) (bc : Blockchain) (db : bolt.DB)
  : outcome (Blockchain * bolt.DB) :=
  lastHash ← fatal (bolt.View (fun tx =>
    match bolt.Bucket tx blocksBucket with
    | None => Err "error getting last block, could not find blocks bucket"%string
    | Some b => Ok (bolt.Get b (bytes_of_string "l"))
    end) db);
  let newBlock := NewBlock now data lastHash in
  '(db, tip) ← fatal (bolt.Update (fun tx =>
    match bolt.Bucket tx blocksBucket with
    | None => Err "error adding block, could not find blocks bucket"%string
    | Some _ =>
        encoded ← Serialize newBlock;
        tx ← bolt.Put tx blocksBucket (Hash newBlock) encoded;
        tx ← bolt.Put tx blocksBucket (bytes_of_string "l") (Hash newBlock);
        Ok (tx, Hash newBlock)
    end) db);
  Ok (mkBlockchain tip, db).

(** A call whose error result is dropped: on an error the transaction is as
    before the call. *)
Definition ignore_err (tx : bolt.Tx) (m : outcome bolt.Tx) : outcome bolt.Tx :=
  match m with
  | Err _ => Ok tx
  | _ => m
  end.

(** [NewBlockchain()] when [bolt.Open] gave the database [db] (the empty map
    for a file it has just created). *)
Definition NewBlockchain (now : Z) (db : bolt.DB) : outcome (Blockchain * bolt.DB) :=
  '(db, tip) ← fatal (bolt.Update (fun tx =>
    match bolt.Bucket tx blocksBucket with
    | None =>
        let genesis := NewGenesisBlock now in
        tx ← ignore_err tx (bolt.CreateBucket tx blocksBucket);
        encoded ← Serialize genesis;
        tx ← ignore_err tx (bolt.Put tx blocksBucket (Hash genesis) encoded);
        tx ← ignore_err tx (bolt.Put tx blocksBucket (bytes_of_string "l") (Hash genesis));
        Ok (tx, Hash genesis)
    | Some b => Ok (tx, bolt.Get b (bytes_of_string "l"))
    end) db);
  Ok (mkBlockchain tip, db).

End WithHasher.

Definition Iterator (bc : Blockchain) : BlockchainIterator :=
  mkIterator (tip bc).

(** [i.Next()]: the block and the iterator after the call. *)
Definition Next (i : BlockchainIterator) (db : bolt.DB)
  : outcome (Block * BlockchainIterator) :=
  fatal (bolt.View (fun tx =>
    match bolt.Bucket tx blocksBucket with
    | None => Err "error fetching block, blocks bucket does not exist"%string
    | Some b =>
        let encodedBlock := bolt.Get b (currentHash i) in
        block ← DeseralizeBlock encodedBlock;
        Ok (block, mkIterator (PrevBlockHash block))
    end) db).

(** [n] calls of [Next] in a row: the blocks in the order returned. *)
Fixpoint Nexts (n : nat) (i : BlockchainIterator) (db : bolt.DB) : outcome (list Block) :=
  match n with
  | O => Ok []
  | S n =>
      '(block, i) ← Next i db;
      blocks ← Nexts n i db;
      Ok (block :: blocks)
  end.

(** [AddBlock] once for each (clock reading, data) of [calls], in order. *)
Fixpoint AddBlocks `{Hasher} (calls : list (Z * string)) (bc : Blockchain) (db : bolt.DB)
  : outcome (Blockchain * bolt.DB) :=
  match calls with
  | [] => Ok (bc, db)
  | (now, data) :: calls =>
      '(bc, db) ← AddBlock now data bc db;
      AddBlocks calls bc db
  end.



(** ** Notions the properties are stated with *)

(** The digest of the block of [pow] at [nonce], read as a number. *)
Definition digestInt `{Hasher} (pow : ProofOfWork) (nonce : Z) : Z :=
  big.SetBytes (Sum256 (prepareData pow nonce)).

(** The test of the loop of [Run], and of [Validate], at [nonce]. *)
Definition below_target `{Hasher} (pow : ProofOfWork) (nonce : Z) : bool :=
  big.Cmp (big.SetBytes (Sum256 (prepareData pow nonce))) (target pow) =? -1.

(** [m] rounds of the loop of [Run], then [continue]. *)
Definition rounds `{Hasher} (pow : ProofOfWork) (m : N)
    (continue : Z -> bytes -> Z * bytes) : Z -> bytes -> Z * bytes :=
  N.peano_rect (fun _ => Z -> bytes -> Z * bytes) continue
    (fun _ rest => Run_round pow rest) m.

(** The block [b] with another nonce. *)
Definition with_nonce (b : Block) (nonce : Z) : Block :=
  mkBlock (Timestamp b) (Data b) (PrevBlockHash b) (Hash b) nonce.

(** The bytes of the three slices of a block. *)
Definition payload (b : Block) : nat :=
  (length (Data b) + length (PrevBlockHash b) + length (Hash b))%nat.

(** The hash of the newest of the blocks [bs], newest first. *)
Definition tip_of (bs : list Block) : bytes :=
  match bs with
  | b :: _ => Hash b
  | [] => []
  end.

(** The blocks after a call [AddBlock(data)] at clock reading [now], when
    the tip pointer holds the hash of the newest block. *)
Definition extend `{Hasher} (bs : list Block) (call : Z * string) : list Block :=
  NewBlock (fst call) (snd call) (tip_of bs) :: bs.

(** The blocks of the chain made by [NewBlockchain] on a new database at
    clock reading [now0] and then one [AddBlock] for each of [calls], newest
    first. *)
Definition chain `{Hasher} (now0 : Z) (calls : list (Z * string)) : list Block :=
  foldl extend [NewGenesisBlock now0] calls.

(** Every block names the hash of the block after it in the list, and the
    last block names none. *)
Fixpoint linked (bs : list Block) : Prop :=
  match bs with
  | [] => True
  | b :: rest =>
      match rest with
      | [] => PrevBlockHash b = []
      | p :: _ => PrevBlockHash b = Hash p /\ linked rest
      end
  end.

(** The database holds the blocks [bs]: the tip pointer is the hash of the
    newest, and every block is recorded under its hash. *)
Definition stored (db : bolt.DB) (bs : list Block) : Prop :=
  exists bucket,
    db !! blocksBucket = Some bucket /\
    bucket !! bytes_of_string "l" = Some (tip_of bs) /\
    forall b, b ∈ bs ->
      exists encoded, Serialize b = Ok encoded /\ bucket !! Hash b = Some encoded.

(** A call of [AddBlock] with arguments of the Go types: the clock reading
    an [int64], the length of the string an [int]. *)
Definition call_ok (call : Z * string) : Prop :=
  int64 (fst call) /\ Z.of_nat (String.length (snd call)) < 2 ^ 30.

(** All hashes in a chain are digests: 32 bytes. *)
Definition hashes_ok (bs : list Block) : Prop :=
  Forall (fun b => length (Hash b) = 32%nat) bs.

(** The number a decimal numeral denotes, if [s] is one. *)
Definition decimal_value (s : string) : option Z :=
  option_map Z.of_int (NilZero.int_of_string s).

(** [NewBlockchain], then the calls of [AddBlock]. *)
Definition build `{Hasher} (now0 : Z) (calls : list (Z * string)) (db : bolt.DB)
  : outcome (Blockchain * bolt.DB) :=
  '(bc, db) ← NewBlockchain now0 db;
  AddBlocks calls bc db.

(** The database has the bucket and a tip pointer of 32 bytes. *)
Definition ready (db : bolt.DB) : Prop :=
  exists bucket h,
    db !! blocksBucket = Some bucket /\
    bucket !! bytes_of_string "l" = Some h /\ length h = 32%nat.

(** The call ends with a result for its caller. *)
Definition returns {A : Type} (m : outcome A) : Prop :=
  match m with
  | Fatal _ => False
  | _ => True
  end.

(** The call returned a value. *)
Definition is_Ok {A : Type} (m : outcome A) : bool :=
  match m with
  | Ok _ => true
  | _ => false
  end.

(** Some nonce that [Run] tries gives the block that [NewBlock now data
    prev] searches for a digest below the target [1 << 232]: a condition on
    the digest function and on what [NewBlock] is given. *)
Definition has_proof `{Hasher} (now : Z) (data : string) (prev : bytes) : Prop :=
  exists nonce,
    0 <= nonce < maxNonce /\
    be_uint (Sum256 (prev ++ bytes_of_string data
                       ++ bytes_of_string (strconv.FormatInt now)
                       ++ bytes_of_string (strconv.FormatInt nonce)
                       ++ bytes_of_string (strconv.FormatInt targetBits)))
    < 2 ^ 232.

(** The handle agrees with the database: the bucket is there and its tip
    pointer is the tip of the handle. *)
Definition synced (bc : Blockchain) (db : bolt.DB) : Prop :=
  exists bucket,
    db !! blocksBucket = Some bucket /\
    bucket !! bytes_of_string "l" = Some (tip bc).

(** No record of the bucket is under the empty key. *)
Definition no_empty_key (db : bolt.DB) : Prop :=
  forall bucket, db !! blocksBucket = Some bucket -> bucket !! [] = None.


Module gob_facts.
Import gob.

Definition kind_of (v : value) : kind :=
  match v with
  | Int _ => KInt
  | Bytes _ => KBytes
  end.

(** Values of the Go types of the fields: integers on 64 bits, slices
    shorter than [tooBig]. *)
Definition value_ok (v : value) : Prop :=
  match v with
  | Int i => int64 i
  | Bytes b => Z.of_nat (length b) < tooBig
  end.

(** Fields as [encodeStruct] takes them: numbers increasing from above
    [fieldnum], each field of the kind its instruction decodes. *)
Inductive fields_ok : Z -> list (Z * value) -> Prop :=
  | fields_ok_nil f : fields_ok f []
  | fields_ok_cons f i v rest :
      f < i -> instr !! Z.to_nat i = Some (kind_of v) ->
      (forall z, v = Int z -> int64 z) ->
      fields_ok i rest -> fields_ok f ((i, v) :: rest).

(** The fields that are sent: those that are not zero. *)
Definition sent (fs : list (Z * value)) : list (Z * value) :=
  List.filter (fun iv => negb (isZero (snd iv))) fs.

(** The bytes a field takes on the wire, at most. *)
Definition wire_size (v : value) : nat :=
  match v with
  | Int _ => 9
  | Bytes b => 9 + length b
  end.

End gob_facts.

(** ** Digests *)

(** SHA-256, the digest of the program. *)
#[global] Program Instance sha256_hasher : Hasher := {| Sum256 := sha256.Sum256 |}.
Next Obligation. intros data. reflexivity. Qed.

(** A digest function that answers the same 32 bytes [0xff] for every
    input: no nonce is below the target. *)
Program Definition ones_hasher : Hasher := {| Sum256 := fun _ => repeat xff 32 |}.
Next Obligation. intros data. reflexivity. Qed.

(** ** A chain to compute with *)

Definition genesis_candidate : Block :=
  mkBlock 1710872070 (bytes_of_string "Genesis Block") [] [] 0.

(** The calls of [main.go] of the first versions, at clock readings for
    which SHA-256 gives a nonce within the first few. *)
Definition demo_calls : list (Z * string) :=
  [ (1719627623, "First Block"%string); (1723916534, "Second Block"%string);
    (1726103277, "Third Block"%string) ].

Definition demo_db : bolt.DB :=
  match build (H := sha256_hasher) 1710872070 demo_calls ∅ with
  | Ok (_, db) => db
  | _ => ∅
  end.

(** The database after [NewBlockchain] alone, and its chain handle. *)
Definition genesis_db : bolt.DB :=
  match NewBlockchain (H := sha256_hasher) 1710872070 ∅ with
  | Ok (_, db) => db
  | _ => ∅
  end.

Definition genesis_bc : Blockchain :=
  mkBlockchain (Hash (NewGenesisBlock (H := sha256_hasher) 1710872070)).

(** A block and its record. *)
Definition sample_block : Block :=
  mkBlock 1710872070 (bytes_of_string "Genesis Block") [] (sha256.Sum256 []) (-7).

Definition sample_record : bytes :=
  match Serialize sample_block with
  | Ok encoded => encoded
  | _ => []
  end.

(** ** The claim about lookups that fail *)

(** C8, as the claim has it: asked for a block under a hash that has no
    record, [Next] ends with a result for its caller. *)
Definition not_found_is_returned : Prop :=
  forall (i : BlockchainIterator) (db : bolt.DB) (bucket : gmap bytes bytes),
    db !! blocksBucket = Some bucket ->
    bucket !! currentHash i = None ->
    returns (Next i db).

(** ** The chain in memory

    [blockchain/block.go] as it was before the database: the chain value
    holds the blocks in a slice, oldest first.

    A run-time panic ends the process, as [log.Fatal] does: it is [Fatal]
    with the message of the panic, without the index it names. *)

Definition errIndex : error := "runtime error: index out of range"%string.

(** [s[i]]. *)
Definition index {A : Type} (s : list A) (i : Z) : outcome A :=
  if (i <? 0) || (Z.of_nat (length s) <=? i) then Fatal errIndex
  else
    match s !! Z.to_nat i with
    | Some x => Ok x
    | None => Fatal errIndex
    end.

(** The version with the proof of work. [Block], [NewBlock],
    [NewGenesisBlock], [NewProofOfWork], [prepareData], [Run] and [Validate]
    read as in the version with the database, and are those above. *)
Module memory.

Record Blockchain : Type := mkBlockchain { Blocks : list Block }.

Section WithHasher.
Context {H : Hasher}.

Definition AddBlock (now : Z) (data : string) (bc : Blockchain) : outcome Blockchain :=
  prevBlock ← index (Blocks bc) (Z.of_nat (length (Blocks bc)) - 1);
  let newBlock := NewBlock now data (Hash prevBlock) in
  Ok (mkBlockchain (Blocks bc ++ [newBlock])).

Definition NewBlockchain (now : Z) : Blockchain :=
  mkBlockchain [NewGenesisBlock now].

(** [AddBlock] once for each (clock reading, data) of [calls], in order. *)
Fixpoint AddBlocks (calls : list (Z * string)) (bc : Blockchain) : outcome Blockchain :=
  match calls with
  | [] => Ok bc
  | (now, data) :: calls =>
      bc ← AddBlock now data bc;
      AddBlocks calls bc
  end.

End WithHasher.

End memory.

(** The first version: a block has no nonce, and its hash is the digest of
    its other fields. *)
Module sethash.

Record Block : Type := mkBlock {
  Timestamp : Z;
  Data : bytes;
  PrevBlockHash : bytes;
  Hash : bytes
}.

Record Blockchain : Type := mkBlockchain { Blocks : list Block }.

Section WithHasher.
Context {H : Hasher}.

Definition SetHash (b : Block) : Block :=
  let timestamp := bytes_of_string (strconv.FormatInt (Timestamp b)) in
  let headers := bytes_Join [PrevBlockHash b; Data b; timestamp] [] in
  let hash := Sum256 headers in
  mkBlock (Timestamp b) (Data b) (PrevBlockHash b) hash.

(** [now] is what [time.Now().Unix()] returns. *)
Definition NewBlock (now : Z) (data : string) (prevBlockHash : bytes) : Block :=
  let block := mkBlock now (bytes_of_string data) prevBlockHash [] in
  SetHash block.

Definition AddBlock (now : Z) (data : string) (bc : Blockchain) : outcome Blockchain :=
  prevBlock ← index (Blocks bc) (Z.of_nat (length (Blocks bc)) - 1);
  let newBlock := NewBlock now data (Hash prevBlock) in
  Ok (mkBlockchain (Blocks bc ++ [newBlock])).

Definition NewGenesisBlock (now : Z) : Block := NewBlock now "Genesis Block" [].

Definition NewBlockchain (now : Z) : Blockchain :=
  mkBlockchain [NewGenesisBlock now].

(** [AddBlock] once for each (clock reading, data) of [calls], in order. *)
Fixpoint AddBlocks (calls : list (Z * string)) (bc : Blockchain) : outcome Blockchain :=
  match calls with
  | [] => Ok bc
  | (now, data) :: calls =>
      bc ← AddBlock now data bc;
      AddBlocks calls bc
  end.

End WithHasher.

(** The bytes [SetHash] takes the digest of. *)
Definition headers (b : Block) : bytes :=
  PrevBlockHash b ++ Data b ++ bytes_of_string (strconv.FormatInt (Timestamp b)).

End sethash.

(** Each block after the first names the hash of the block before it, and
    the first names none: [prev] and [hash] read the two fields. *)
Definition chained {B : Type} (prev hash : B -> bytes) (bs : list B) : Prop :=
  (forall b, bs !! 0%nat = Some b -> prev b = []) /\
  (forall i b b', bs !! i = Some b -> bs !! S i = Some b' -> prev b' = hash b).

(** * Properties *)

(** ** Bytes and numbers *)

(** Comparisons computed to a boolean, as facts for [lia]. *)
Ltac zbool :=
  repeat match goal with
  | H : (_ <? _) = true |- _ => apply Z.ltb_lt in H
  | H : (_ <? _) = false |- _ => apply Z.ltb_ge in H
  | H : (_ <=? _) = true |- _ => apply Z.leb_le in H
  | H : (_ <=? _) = false |- _ => apply Z.leb_gt in H
  | H : (_ >? _) = _ |- _ => rewrite Z.gtb_ltb in H
  | H : (_ >=? _) = _ |- _ => rewrite Z.geb_leb in H
  | H : (_ =? _) = true |- _ => apply Z.eqb_eq in H
  | H : (_ =? _) = false |- _ => apply Z.eqb_neq in H
  end.

Lemma byte_to_Z_range (b : byte) : 0 <= byte_to_Z b < 256.
Proof.
  unfold byte_to_Z. pose proof (Byte.to_N_bounded b). lia.
Qed.

Lemma byte_to_of_Z (z : Z) : byte_to_Z (byte_of_Z z) = z mod 256.
Proof.
  unfold byte_to_Z, byte_of_Z.
  assert (Hr : 0 <= z mod 256 < 256) by (apply Z.mod_pos_bound; lia).
  destruct (Byte.of_N (Z.to_N (z mod 256))) as [b|] eqn:E.
  - apply Byte.to_of_N in E. rewrite E. lia.
  - apply Byte.of_N_None_iff in E. lia.
Qed.

Lemma byte_of_to_Z (b : byte) : byte_of_Z (byte_to_Z b) = b.
Proof.
  unfold byte_of_Z, byte_to_Z.
  pose proof (Byte.to_N_bounded b).
  rewrite Z.mod_small by lia. rewrite N2Z.id, Byte.of_to_N. reflexivity.
Qed.

Lemma length_be_bytes (n : nat) (x : Z) : length (be_bytes n x) = n.
Proof. induction n; simpl; congruence. Qed.

Lemma be_uint_acc (b : bytes) (acc : Z) :
  fold_left (fun acc b => acc * 256 + byte_to_Z b) b acc
  = acc * 256 ^ Z.of_nat (length b) + be_uint b.
Proof.
  unfold be_uint. revert acc. induction b as [|c b IH]; intros acc.
  - simpl. lia.
  - cbn [fold_left length]. rewrite IH, (IH (0 * 256 + byte_to_Z c)).
    rewrite Nat2Z.inj_succ, Z.pow_succ_r by lia. lia.
Qed.

Lemma be_uint_app (a b : bytes) :
  be_uint (a ++ b) = be_uint a * 256 ^ Z.of_nat (length b) + be_uint b.
Proof.
  unfold be_uint at 1. rewrite fold_left_app, be_uint_acc. reflexivity.
Qed.

Lemma be_uint_cons (c : byte) (b : bytes) :
  be_uint (c :: b) = byte_to_Z c * 256 ^ Z.of_nat (length b) + be_uint b.
Proof.
  change (c :: b) with ([c] ++ b). rewrite be_uint_app.
  unfold be_uint at 1. simpl. reflexivity.
Qed.

Lemma be_uint_range (b : bytes) : 0 <= be_uint b < 256 ^ Z.of_nat (length b).
Proof.
  induction b as [|c b IH].
  - unfold be_uint. simpl. lia.
  - rewrite be_uint_cons. pose proof (byte_to_Z_range c).
    simpl length. rewrite Nat2Z.inj_succ, Z.pow_succ_r by lia. nia.
Qed.

Lemma be_uint_be_bytes (n : nat) (x : Z) :
  0 <= x -> be_uint (be_bytes n x) = x mod 256 ^ Z.of_nat n.
Proof.
  intros Hx. induction n as [|n IH].
  - simpl. unfold be_uint. simpl. rewrite Z.mod_1_r. reflexivity.
  - cbn [be_bytes]. rewrite be_uint_cons, length_be_bytes, IH, byte_to_of_Z.
    rewrite Z.shiftr_div_pow2 by lia.
    rewrite Nat2Z.inj_succ, Z.pow_succ_r by lia.
    replace (2 ^ (8 * Z.of_nat n)) with (256 ^ Z.of_nat n)
      by (rewrite Z.pow_mul_r by lia; reflexivity).
    set (p := 256 ^ Z.of_nat n). assert (0 < p) by (apply Z.pow_pos_nonneg; lia).
    rewrite (Z.mul_comm 256 p), Z.rem_mul_r by lia. lia.
Qed.

(** ** The gob encoding of a block *)

Module gob_lemmas.
Import gob gob_facts.

Lemma byteLen_spec (x : Z) :
  0x7F < x < 2 ^ 64 -> 1 <= byteLen x <= 8 /\ x < 256 ^ byteLen x.
Proof.
  intros Hx. unfold byteLen.
  destruct (Z.log2_spec x) as [Hlo Hhi]; [lia|].
  pose proof (Z.log2_nonneg x) as Hnn.
  assert (Hlt : Z.log2 x < 64).
  { apply Z.log2_lt_pow2; lia. }
  assert (Hq : 0 <= Z.log2 x / 8 <= 7).
  { Z.div_mod_to_equations. lia. }
  split; [lia|].
  replace (256 ^ (Z.log2 x / 8 + 1)) with (2 ^ (8 * (Z.log2 x / 8 + 1)))
    by (rewrite Z.pow_mul_r by lia; reflexivity).
  eapply Z.lt_le_trans; [exact Hhi|].
  apply Z.pow_le_mono_r; [lia|].
  Z.div_mod_to_equations. lia.
Qed.

Lemma decodeUint_encodeUint (empty : error) (x : Z) (rest : bytes) :
  0 <= x < 2 ^ 64 ->
  decodeUint empty (encodeUint x ++ rest) = Ok (x, rest).
Proof.
  intros Hx. unfold encodeUint.
  destruct (x <=? 0x7F) eqn:Hsmall.
  - apply Z.leb_le in Hsmall. cbn [app decodeUint].
    rewrite byte_to_of_Z, Z.mod_small by lia.
    apply Z.leb_le in Hsmall. rewrite Hsmall. reflexivity.
  - apply Z.leb_gt in Hsmall.
    destruct (byteLen_spec x) as [Hn Hlt]; [lia|].
    set (n := byteLen x) in *. clearbody n.
    cbn [app decodeUint]. rewrite byte_to_of_Z.
    replace (- n mod 256) with (256 - n)
      by (apply Z.mod_unique_pos with (q := -1); lia).
    destruct (256 - n <=? 127) eqn:E1; [zbool; lia|].
    replace (256 - (256 - n)) with n by lia.
    destruct (n >? uint64Size) eqn:E2; [unfold uint64Size in E2; zbool; lia|].
    rewrite length_app, length_be_bytes.
    destruct (Z.of_nat (Z.to_nat n + length rest) <? n) eqn:E3; [zbool; lia|].
    rewrite take_app_length', drop_app_length' by (symmetry; apply length_be_bytes).
    rewrite be_uint_be_bytes by lia.
    rewrite Z2Nat.id, Z.mod_small by lia. reflexivity.
Qed.

Lemma lor_double_1 (a : Z) : 0 <= a -> Z.lor (Z.shiftl a 1) 1 = 2 * a + 1.
Proof.
  intros Ha. destruct a as [|p|p]; [reflexivity|reflexivity|lia].
Qed.

Lemma decodeInt_encodeInt (i : Z) (rest : bytes) :
  int64 i -> decodeInt (encodeInt i ++ rest) = Ok (i, rest).
Proof.
  unfold int64, MinInt64, MaxInt64. intros Hi. unfold decodeInt, encodeInt.
  destruct (i <? 0) eqn:Hneg.
  - apply Z.ltb_lt in Hneg.
    assert (Hl : Z.lnot i = - i - 1) by (unfold Z.lnot; lia).
    rewrite lor_double_1 by lia.
    rewrite decodeUint_encodeUint by lia. cbn [mbind outcome_bind].
    rewrite Z.testbit_odd_0. rewrite Z.shiftr_div_pow2 by lia.
    replace ((2 * Z.lnot i + 1) / 2 ^ 1) with (Z.lnot i)
      by (change (2 ^ 1) with 2; apply Z.div_unique with (r := 1); lia).
    rewrite Z.lnot_involutive. reflexivity.
  - apply Z.ltb_ge in Hneg.
    rewrite Z.shiftl_mul_pow2 by lia. change (2 ^ 1) with 2.
    rewrite decodeUint_encodeUint by lia. cbn [mbind outcome_bind].
    rewrite (Z.mul_comm i 2), Z.testbit_even_0.
    rewrite Z.shiftr_div_pow2 by lia. change (2 ^ 1) with 2.
    rewrite (Z.mul_comm 2 i), Z.div_mul by lia. reflexivity.
Qed.

Lemma encodeUint_nonnil (x : Z) : encodeUint x <> [].
Proof. unfold encodeUint. destruct (x <=? 0x7F); discriminate. Qed.

Lemma length_encodeUint (x : Z) : (1 <= length (encodeUint x))%nat.
Proof. unfold encodeUint. destruct (x <=? 0x7F); simpl; lia. Qed.

Lemma decodeValue_encodeValue (v : value) (rest : bytes) :
  value_ok v -> decodeValue (kind_of v) (encodeValue v ++ rest) = Ok (v, rest).
Proof.
  destruct v as [i|b]; cbn [value_ok kind_of decodeValue encodeValue]; intros Hv.
  - rewrite decodeInt_encodeInt by assumption. reflexivity.
  - unfold tooBig in Hv. rewrite <- app_assoc.
    rewrite decodeUint_encodeUint by lia. cbn [mbind outcome_bind].
    rewrite length_app.
    destruct (Z.of_nat (length b) >? MaxInt64) eqn:E1;
      [unfold MaxInt64 in E1; zbool; lia|].
    destruct (Z.of_nat (length b + length rest) <? Z.of_nat (length b)) eqn:E2;
      [zbool; lia|].
    destruct (tooBig <=? Z.of_nat (length b)) eqn:E3;
      [unfold tooBig in E3; zbool; lia|].
    cbn [orb]. rewrite Nat2Z.id, take_app_length, drop_app_length. reflexivity.
Qed.

Lemma fields_ok_weaken (f f' : Z) (fs : list (Z * value)) :
  f' <= f -> fields_ok f fs -> fields_ok f' fs.
Proof.
  intros Hle Hok. destruct Hok; constructor; try assumption. lia.
Qed.

Lemma decodeStruct_step (r : nat) (f : Z) (b : bytes) :
  b <> [] ->
  decodeStruct (S r) f b =
    ('(delta, rest) ← decodeUint io.EOF b;
     if delta >? MaxInt64 then Err errBadData
     else if delta =? 0 then Ok []
     else if f >=? Z.of_nat (length instr) - delta then Err errRange
     else
       let fieldnum := f + delta in
       match instr !! Z.to_nat fieldnum with
       | None => Err errRange
       | Some k =>
           '(v, rest) ← decodeValue k rest;
           vs ← decodeStruct r fieldnum rest;
           Ok ((fieldnum, v) :: vs)
       end).
Proof. destruct b; [congruence | reflexivity]. Qed.

Lemma decodeStruct_encodeStruct (fs : list (Z * value)) :
  forall (f : Z) (rounds : nat),
    -1 <= f -> fields_ok f fs ->
    Z.of_nat (length (encodeStruct f fs)) < tooBig ->
    (length (encodeStruct f fs) <= rounds)%nat ->
    decodeStruct rounds f (encodeStruct f fs) = Ok (sent fs).
Proof.
  induction fs as [|[i v] rest IH]; intros f rounds Hf Hok Hbig Hrounds.
  - cbn [encodeStruct] in *. destruct rounds as [|r]; [simpl in Hrounds; lia|].
    reflexivity.
  - inversion Hok as [|? ? ? ? Hlt Hinstr Hint Hrest]; subst.
    cbn [encodeStruct sent List.filter snd] in *.
    destruct (isZero v) eqn:Hz; cbn [negb].
    + apply IH; try assumption. apply fields_ok_weaken with i; [lia | assumption].
    + pose proof (lookup_lt_Some _ _ _ Hinstr) as Hi. cbn [length instr] in Hi.
      rewrite !length_app in Hbig, Hrounds.
      pose proof (length_encodeUint (i - f)) as Hlen.
      destruct rounds as [|r]; [lia|].
      rewrite decodeStruct_step
        by (intros Hnil; apply app_eq_nil in Hnil as [Hnil _];
            exact (encodeUint_nonnil _ Hnil)).
      rewrite decodeUint_encodeUint by lia. cbn [mbind outcome_bind].
      destruct (i - f >? MaxInt64) eqn:E1; [unfold MaxInt64 in E1; zbool; lia|].
      destruct (i - f =? 0) eqn:E2; [zbool; lia|].
      cbn [length instr].
      destruct (f >=? Z.of_nat 5 - (i - f)) eqn:E3; [zbool; lia|].
      cbv zeta. replace (f + (i - f)) with i by lia. rewrite Hinstr.
      rewrite decodeValue_encodeValue.
      * cbn [mbind outcome_bind]. rewrite IH; [reflexivity|lia|assumption|lia|lia].
      * destruct v as [z|b]; cbn [value_ok]; [apply Hint; reflexivity|].
        cbn [encodeValue] in Hbig. rewrite length_app in Hbig. lia.
Qed.

Lemma fields_ok_Block (b : Block) : well_typed b -> fields_ok (-1) (fields b).
Proof.
  intros [Hts Hnonce]. unfold fields.
  repeat (constructor; [lia | reflexivity | intros z Hz; try discriminate; congruence |]).
  constructor.
Qed.

Lemma setField_sent (b : Block) :
  foldl setField (mkBlock 0 [] [] [] 0) (sent (fields b)) = b.
Proof.
  destruct b as [ts data prev hash nonce]. unfold sent, fields.
  cbn [List.filter snd isZero Timestamp Data PrevBlockHash Hash Nonce].
  destruct (ts =? 0) eqn:Hts; destruct data; destruct prev; destruct hash;
    destruct (nonce =? 0) eqn:Hnonce; zbool; subst; reflexivity.
Qed.

Lemma writeMessage_Ok (message out : bytes) :
  writeMessage message = Ok out ->
  Z.of_nat (length message) < tooBig /\
  out = encodeUint (Z.of_nat (length message)) ++ message.
Proof.
  unfold writeMessage. destruct (_ >=? _) eqn:E; [discriminate|].
  intros [= <-]. zbool. split; [lia | reflexivity].
Qed.

Lemma recvMessage_message (empty : error) (message rest : bytes) :
  Z.of_nat (length message) < tooBig ->
  recvMessage empty ((encodeUint (Z.of_nat (length message)) ++ message) ++ rest)
  = Ok (message, rest).
Proof.
  intros Hbig. unfold recvMessage. rewrite <- app_assoc.
  rewrite decodeUint_encodeUint by (unfold tooBig in Hbig; lia).
  cbn [mbind outcome_bind].
  destruct (_ >=? _) eqn:E1; [zbool; lia|].
  rewrite length_app.
  destruct (_ <? _) eqn:E2; [zbool; lia|].
  rewrite Nat2Z.id, take_app_length, drop_app_length. reflexivity.
Qed.

(** What [Encode] wrote, [Decode] reads back into a zero [Block]. *)
Lemma Decode_Encode (b : Block) (out : bytes) :
  well_typed b -> Encode b = Ok out -> Decode out (mkBlock 0 [] [] [] 0) = Ok b.
Proof.
  intros Hb. unfold Encode.
  destruct (writeMessage (encodeInt (- blockId) ++ wireType_Block)) as [typ| |] eqn:Htyp;
    cbn [mbind outcome_bind]; try discriminate.
  destruct (writeMessage (encodeInt blockId ++ _)) as [val| |] eqn:Hval;
    cbn [mbind outcome_bind]; try discriminate.
  intros [= <-].
  apply writeMessage_Ok in Htyp as [Hbig1 ->].
  apply writeMessage_Ok in Hval as [Hbig2 ->].
  set (m1 := encodeInt (- blockId) ++ wireType_Block) in *.
  set (m2 := encodeInt blockId ++ encodeStruct (-1) (fields b)) in *.
  unfold Decode.
  rewrite recvMessage_message by assumption. cbn [mbind outcome_bind].
  subst m1.
  rewrite decodeInt_encodeInt by (unfold int64, MinInt64, MaxInt64, blockId; lia).
  cbn [mbind outcome_bind].
  rewrite Z.eqb_refl, bool_decide_eq_true_2 by reflexivity. cbn [andb].
  rewrite <- (app_nil_r (encodeUint _ ++ m2)).
  rewrite recvMessage_message by assumption. cbn [mbind outcome_bind].
  subst m2.
  rewrite decodeInt_encodeInt by (unfold int64, MinInt64, MaxInt64, blockId; lia).
  cbn [mbind outcome_bind]. rewrite Z.eqb_refl.
  rewrite length_app in Hbig2.
  rewrite decodeStruct_encodeStruct;
    [|lia|apply fields_ok_Block; assumption|lia|lia].
  cbn [mbind outcome_bind]. rewrite setField_sent. reflexivity.
Qed.

Lemma length_encodeUint_le (x : Z) :
  0 <= x < 2 ^ 64 -> (length (encodeUint x) <= 9)%nat.
Proof.
  intros Hx. unfold encodeUint. destruct (x <=? 0x7F) eqn:E; [simpl; lia|].
  zbool. destruct (byteLen_spec x) as [Hn _]; [lia|].
  cbn [length]. rewrite length_be_bytes. lia.
Qed.

Lemma length_encodeInt_le (i : Z) : int64 i -> (length (encodeInt i) <= 9)%nat.
Proof.
  unfold int64, MinInt64, MaxInt64. intros Hi. unfold encodeInt.
  apply length_encodeUint_le. destruct (i <? 0) eqn:E; zbool.
  - rewrite lor_double_1 by (unfold Z.lnot; lia). unfold Z.lnot. lia.
  - rewrite Z.shiftl_mul_pow2 by lia. lia.
Qed.

Lemma length_encodeValue_le (v : value) :
  value_ok v -> (length (encodeValue v) <= wire_size v)%nat.
Proof.
  destruct v as [i|b]; cbn [value_ok encodeValue wire_size].
  - apply length_encodeInt_le.
  - intros Hb. rewrite length_app.
    pose proof (length_encodeUint_le (Z.of_nat (length b))) as Hlen.
    unfold tooBig in Hb. lia.
Qed.

Lemma length_encodeStruct_le (fs : list (Z * value)) :
  forall f, -1 <= f -> fields_ok f fs ->
    Forall (fun iv => value_ok (snd iv)) fs ->
    (length (encodeStruct f fs)
     <= 1 + list_sum (map (fun iv => 1 + wire_size (snd iv)) fs))%nat.
Proof.
  induction fs as [|[i v] rest IH]; intros f Hf Hok Hvs.
  - cbn. lia.
  - inversion Hok as [|? ? ? ? Hlt Hinstr Hint Hrest]; subst.
    inversion Hvs as [|? ? Hv Hvrest]; subst. cbn [snd] in Hv.
    cbn [encodeStruct map snd].
    change (list_sum (?x :: ?l)) with (x + list_sum l)%nat.
    destruct (isZero v).
    + specialize (IH f Hf (fields_ok_weaken i f rest ltac:(lia) Hrest) Hvrest). lia.
    + pose proof (lookup_lt_Some _ _ _ Hinstr) as Hi. cbn [length instr] in Hi.
      rewrite !length_app.
      specialize (IH i ltac:(lia) Hrest Hvrest).
      pose proof (length_encodeValue_le v Hv).
      assert (length (encodeUint (i - f)) = 1%nat) as ->.
      { unfold encodeUint. destruct (i - f <=? 0x7F) eqn:E; [reflexivity|zbool; lia]. }
      lia.
Qed.

Lemma length_encodeStruct_Block (b : Block) :
  well_typed b -> Z.of_nat (payload b) < 2 ^ 32 ->
  (length (encodeStruct (-1) (fields b)) <= 51 + payload b)%nat.
Proof.
  intros Hb Hsize. unfold payload in *.
  pose proof (length_encodeStruct_le (fields b) (-1) ltac:(lia) (fields_ok_Block b Hb))
    as Hlen.
  unfold fields in Hlen at 2 3. cbn [map list_sum fold_right snd wire_size] in Hlen.
  destruct Hb as [Hts Hnonce].
  assert (Hvs : Forall (fun iv => value_ok (snd iv)) (fields b)).
  { unfold fields, tooBig.
    repeat (apply List.Forall_cons;
            [cbn [snd value_ok]; unfold tooBig; first [assumption | lia]|]).
    apply List.Forall_nil. }
  specialize (Hlen Hvs). unfold fields. lia.
Qed.

(** [Encode] succeeds on a block of moderate size, and what it writes is
    little more than the block. *)
Lemma Encode_total (b : Block) :
  well_typed b -> Z.of_nat (payload b) < 2 ^ 32 ->
  exists out, Encode b = Ok out /\ (length out <= 144 + payload b)%nat.
Proof.
  intros Hb Hsize. pose proof (length_encodeStruct_Block b Hb Hsize) as Hlen.
  unfold Encode, writeMessage.
  set (m1 := encodeInt (- blockId) ++ wireType_Block).
  assert (Hm1 : length m1 = 79%nat) by reflexivity.
  rewrite Hm1. cbn [Z.geb Z.compare Z.of_nat Pos.of_succ_nat Pos.succ mbind outcome_bind].
  change (Z.of_nat 79 >=? tooBig) with false. cbn [mbind outcome_bind].
  set (m2 := encodeInt blockId ++ encodeStruct (-1) (fields b)).
  assert (Hm2 : (length m2 <= 53 + payload b)%nat).
  { subst m2. rewrite length_app. change (length (encodeInt blockId)) with 2%nat. lia. }
  destruct (Z.of_nat (length m2) >=? tooBig) eqn:E; [unfold tooBig in E; zbool; lia|].
  cbn [mbind outcome_bind]. eexists. split; [reflexivity|].
  rewrite !length_app, Hm1.
  change (length (encodeUint (Z.of_nat 79))) with 1%nat.
  pose proof (length_encodeUint_le (Z.of_nat (length m2)) ltac:(lia)). lia.
Qed.

End gob_lemmas.

(** ** The search for a nonce *)

Section Mining.
Context `{Hasher}.
Variable pow : ProofOfWork.

Lemma Cmp_lt (x y : Z) : (big.Cmp x y =? -1) = true <-> x < y.
Proof.
  unfold big.Cmp. destruct (x ?= y) eqn:E.
  - apply Z.compare_eq in E. split; [discriminate | lia].
  - rewrite Z.compare_lt_iff in E. split; [intros _; exact E | reflexivity].
  - rewrite Z.compare_gt_iff in E. split; [discriminate | lia].
Qed.

Lemma below_target_lt (nonce : Z) :
  below_target pow nonce = true <->
  be_uint (Sum256 (prepareData pow nonce)) < target pow.
Proof. apply Cmp_lt. Qed.

Lemma rounds_0 k : rounds pow 0 k = k.
Proof. reflexivity. Qed.

Lemma rounds_succ m k : rounds pow (N.succ m) k = Run_round pow (rounds pow m k).
Proof. unfold rounds. rewrite N.peano_rect_succ. reflexivity. Qed.

Lemma rounds_add a b k : rounds pow (a + b) k = rounds pow a (rounds pow b k).
Proof.
  induction a as [|a IH] using N.peano_ind.
  - rewrite N.add_0_l. reflexivity.
  - rewrite N.add_succ_l, !rounds_succ, IH. reflexivity.
Qed.

Lemma Run_loop_rounds n k : Run_loop pow n k = rounds pow (2 ^ N.of_nat n) k.
Proof.
  revert k. induction n as [|n IH]; intros k.
  - change (2 ^ N.of_nat 0)%N with (N.succ 0). rewrite rounds_succ. reflexivity.
  - change (Run_loop pow (S n) k) with (Run_loop pow n (Run_loop pow n k)).
    rewrite !IH, <- rounds_add, Nat2N.inj_succ, N.pow_succ_r'. f_equal. lia.
Qed.

(** Once the rounds reach [maxNonce], what follows them is not run. *)
Lemma rounds_enough m : forall k k' nonce hash,
  nonce <= maxNonce -> maxNonce - nonce < Z.of_N m ->
  rounds pow m k nonce hash = rounds pow m k' nonce hash.
Proof.
  induction m as [|m IH] using N.peano_ind; intros k k' nonce hash Hle Hm; [lia|].
  rewrite !rounds_succ. unfold Run_round.
  destruct (nonce <? maxNonce) eqn:Hguard; [|reflexivity].
  destruct (_ =? -1); [reflexivity|].
  zbool. apply IH; lia.
Qed.

(** The equation of the loop: a round, then the loop again. *)
Lemma Run_from_unfold nonce hash :
  0 <= nonce ->
  Run_from pow nonce hash = Run_round pow (Run_from pow) nonce hash.
Proof.
  intros Hnonce. unfold Run_from. rewrite !Run_loop_rounds.
  set (M := (2 ^ N.of_nat 63)%N). set (ret := fun (n : Z) (h : bytes) => (n, h)).
  rewrite <- rounds_succ.
  destruct (Z.le_gt_cases nonce maxNonce) as [Hle|Hgt].
  - rewrite <- N.add_1_r, rounds_add. apply rounds_enough; [assumption|].
    subst M. unfold maxNonce, MaxInt64 in *. change (Z.of_N (2 ^ N.of_nat 63)) with (2 ^ 63). lia.
  - assert (Hexit : forall m k, m <> 0%N -> rounds pow m k nonce hash = (nonce, hash)).
    { intros m k Hm. destruct (N.zero_or_succ m) as [?|[m' ->]]; [contradiction|].
      rewrite rounds_succ. unfold Run_round.
      destruct (nonce <? maxNonce) eqn:E; [zbool; lia | reflexivity]. }
    rewrite !Hexit; [reflexivity | subst M; discriminate | lia].
Qed.

Lemma Run_from_hit nonce hash :
  0 <= nonce < maxNonce -> below_target pow nonce = true ->
  Run_from pow nonce hash = (nonce, Sum256 (prepareData pow nonce)).
Proof.
  intros Hn Hhit. rewrite Run_from_unfold by lia. unfold Run_round.
  destruct (nonce <? maxNonce) eqn:E; [|zbool; lia].
  unfold below_target in Hhit. cbv zeta. rewrite Hhit. reflexivity.
Qed.

Lemma Run_from_miss nonce hash :
  0 <= nonce < maxNonce -> below_target pow nonce = false ->
  Run_from pow nonce hash
  = Run_from pow (nonce + 1) (Sum256 (prepareData pow nonce)).
Proof.
  intros Hn Hmiss. rewrite Run_from_unfold by lia. unfold Run_round.
  destruct (nonce <? maxNonce) eqn:E; [|zbool; lia].
  unfold below_target in Hmiss. cbv zeta. rewrite Hmiss. reflexivity.
Qed.

Lemma Run_from_exit nonce hash :
  maxNonce <= nonce -> Run_from pow nonce hash = (nonce, hash).
Proof.
  intros Hn. rewrite Run_from_unfold by (unfold maxNonce, MaxInt64 in Hn; lia).
  unfold Run_round. destruct (nonce <? maxNonce) eqn:E; [zbool; lia | reflexivity].
Qed.

(** The loop stops at the first nonce below the target. *)
Lemma Run_from_first_hit (m : Z) :
  m < maxNonce -> below_target pow m = true ->
  forall nonce, nonce <= m -> forall hash,
    0 <= nonce ->
    (forall j, nonce <= j < m -> below_target pow j = false) ->
    Run_from pow nonce hash = (m, Sum256 (prepareData pow m)).
Proof.
  intros Hm Hhit.
  apply (Z.left_induction
    (fun nonce => forall hash, 0 <= nonce ->
       (forall j, nonce <= j < m -> below_target pow j = false) ->
       Run_from pow nonce hash = (m, Sum256 (prepareData pow m)))).
  - intros x y ->. reflexivity.
  - intros hash H0 _. apply Run_from_hit; [lia | assumption].
  - intros nonce Hlt IH hash H0 Hmiss.
    rewrite Run_from_miss by (try apply Hmiss; lia).
    apply IH; [lia|]. intros j Hj. apply Hmiss. lia.
Qed.

(** Without a nonce below the target the loop runs to [maxNonce] and the
    digest is the one of the last round. *)
Lemma Run_from_no_hit :
  forall nonce, nonce <= maxNonce - 1 -> forall hash,
    0 <= nonce ->
    (forall j, nonce <= j < maxNonce -> below_target pow j = false) ->
    Run_from pow nonce hash = (maxNonce, Sum256 (prepareData pow (maxNonce - 1))).
Proof.
  apply (Z.left_induction
    (fun nonce => forall hash, 0 <= nonce ->
       (forall j, nonce <= j < maxNonce -> below_target pow j = false) ->
       Run_from pow nonce hash
       = (maxNonce, Sum256 (prepareData pow (maxNonce - 1))))).
  - intros x y ->. reflexivity.
  - intros hash H0 Hmiss.
    rewrite Run_from_miss by (try apply Hmiss; lia).
    replace (maxNonce - 1 + 1) with maxNonce by lia.
    apply Run_from_exit. lia.
  - intros nonce Hlt IH hash H0 Hmiss.
    rewrite Run_from_miss by (try apply Hmiss; lia).
    apply IH; [lia|]. intros j Hj. apply Hmiss. lia.
Qed.

(** What the loop from [nonce] returns, in all cases. *)
Lemma Run_from_spec :
  forall nonce, nonce <= maxNonce -> forall hash, 0 <= nonce ->
    exists n h,
      Run_from pow nonce hash = (n, h) /\
      nonce <= n <= maxNonce /\
      (forall j, nonce <= j < n -> below_target pow j = false) /\
      (n < maxNonce -> below_target pow n = true /\ h = Sum256 (prepareData pow n)) /\
      (n = maxNonce -> nonce < maxNonce -> h = Sum256 (prepareData pow (maxNonce - 1))).
Proof.
  apply (Z.left_induction
    (fun nonce => forall hash, 0 <= nonce ->
       exists n h,
         Run_from pow nonce hash = (n, h) /\
         nonce <= n <= maxNonce /\
         (forall j, nonce <= j < n -> below_target pow j = false) /\
         (n < maxNonce -> below_target pow n = true /\ h = Sum256 (prepareData pow n)) /\
         (n = maxNonce -> nonce < maxNonce ->
          h = Sum256 (prepareData pow (maxNonce - 1))))).
  - intros x y ->. reflexivity.
  - intros hash H0. exists maxNonce, hash.
    rewrite Run_from_exit by lia. repeat split; try lia.
  - intros nonce Hlt IH hash H0.
    destruct (below_target pow nonce) eqn:Hhit.
    + exists nonce, (Sum256 (prepareData pow nonce)).
      rewrite Run_from_hit by (try assumption; lia).
      repeat split; try lia; assumption.
    + destruct (IH (Sum256 (prepareData pow nonce))) as (n & h & Hrun & Hn & Hmiss & Hlow & Hmax);
        [lia|].
      exists n, h. rewrite Run_from_miss by (try assumption; lia).
      split; [assumption|]. split; [lia|]. split; [|split].
      * intros j Hj. destruct (Z.eq_dec j nonce) as [->|Hne]; [assumption|].
        apply Hmiss. lia.
      * assumption.
      * intros -> _. destruct (Z.eq_dec (Z.succ nonce) maxNonce) as [Heq|Hne].
        -- rewrite Run_from_exit in Hrun by lia. injection Hrun as _ <-.
           f_equal. f_equal. lia.
        -- apply Hmax; [reflexivity | lia].
Qed.

Lemma maxNonce_pos : 0 < maxNonce.
Proof. reflexivity. Qed.

(** What [Run] returns: a nonce of the range, and the digest at the last
    nonce tried. *)
Lemma Run_spec :
  exists n h,
    Run pow = (n, h) /\
    0 <= n <= maxNonce /\
    (forall j, 0 <= j < n -> below_target pow j = false) /\
    (n < maxNonce -> below_target pow n = true /\ h = Sum256 (prepareData pow n)) /\
    (n = maxNonce -> h = Sum256 (prepareData pow (maxNonce - 1))).
Proof.
  destruct (Run_from_spec 0 ltac:(pose proof maxNonce_pos; lia) (repeat x00 32) ltac:(lia))
    as (n & h & Hrun & Hn & Hmiss & Hlow & Hmax).
  exists n, h. repeat split; try assumption; try lia; try (apply Hlow; assumption).
  intros ->. apply Hmax; [reflexivity | apply maxNonce_pos].
Qed.

Lemma Run_length : length (snd (Run pow)) = 32%nat.
Proof.
  destruct Run_spec as (n & h & -> & Hn & _ & Hlow & Hmax). cbn [snd].
  destruct (Z.eq_dec n maxNonce) as [Heq|Hne].
  - rewrite (Hmax Heq). apply Sum256_size.
  - destruct Hlow as [_ ->]; [lia|]. apply Sum256_size.
Qed.

End Mining.

Section Blocks.
Context `{Hasher}.

(** The data hashed does not depend on the hash and the nonce stored in
    the block. *)
Lemma prepareData_fields (b b' : Block) (nonce : Z) :
  Timestamp b = Timestamp b' -> Data b = Data b' ->
  PrevBlockHash b = PrevBlockHash b' ->
  prepareData (NewProofOfWork b) nonce = prepareData (NewProofOfWork b') nonce.
Proof. unfold prepareData. cbn [block NewProofOfWork]. intros -> -> ->. reflexivity. Qed.

Lemma below_target_fields (b b' : Block) (nonce : Z) :
  Timestamp b = Timestamp b' -> Data b = Data b' ->
  PrevBlockHash b = PrevBlockHash b' ->
  below_target (NewProofOfWork b) nonce = below_target (NewProofOfWork b') nonce.
Proof.
  intros Hts Hdata Hprev. unfold below_target.
  rewrite (prepareData_fields b b') by assumption. reflexivity.
Qed.

Lemma Validate_below_target (b : Block) :
  Validate (NewProofOfWork b) = below_target (NewProofOfWork b) (Nonce b).
Proof. reflexivity. Qed.

(** The fields of a new block. *)
Lemma NewBlock_fields (now : Z) (data : string) (prev : bytes) :
  let candidate := mkBlock now (bytes_of_string data) prev [] 0 in
  let b := NewBlock now data prev in
  Timestamp b = now /\ Data b = bytes_of_string data /\ PrevBlockHash b = prev /\
  Nonce b = fst (Run (NewProofOfWork candidate)) /\
  Hash b = snd (Run (NewProofOfWork candidate)).
Proof.
  cbv zeta. unfold NewBlock. destruct (Run _) as [nonce hash]. repeat split.
Qed.

Lemma NewBlock_Hash_length (now : Z) (data : string) (prev : bytes) :
  length (Hash (NewBlock now data prev)) = 32%nat.
Proof.
  destruct (NewBlock_fields now data prev) as (_ & _ & _ & _ & ->). apply Run_length.
Qed.

Lemma NewBlock_Nonce_range (now : Z) (data : string) (prev : bytes) :
  0 <= Nonce (NewBlock now data prev) <= maxNonce.
Proof.
  destruct (NewBlock_fields now data prev) as (_ & _ & _ & -> & _).
  destruct (Run_spec (NewProofOfWork (mkBlock now (bytes_of_string data) prev [] 0)))
    as (n & h & -> & Hn & _). exact Hn.
Qed.

Lemma NewBlock_well_typed (now : Z) (data : string) (prev : bytes) :
  int64 now -> well_typed (NewBlock now data prev).
Proof.
  intros Hnow. pose proof (NewBlock_Nonce_range now data prev) as Hn.
  destruct (NewBlock_fields now data prev) as (Hts & _).
  split; [rewrite Hts; assumption|].
  unfold int64, MinInt64. unfold maxNonce in Hn. lia.
Qed.

End Blocks.

(** ** Serialization and the database *)

Import gob_lemmas.


Lemma fatal_Ok {A : Type} (m : outcome A) (a : A) : fatal m = Ok a <-> m = Ok a.
Proof. destruct m; cbn; split; congruence. Qed.

Lemma fatal_not_Err {A : Type} (m : outcome A) (e : error) : fatal m <> Err e.
Proof. destruct m; cbn; congruence. Qed.

Lemma Serialize_Ok (b : Block) (out : bytes) :
  Serialize b = Ok out <-> gob.Encode b = Ok out.
Proof. apply fatal_Ok. Qed.

Lemma DeseralizeBlock_Serialize (b : Block) (out : bytes) :
  well_typed b -> Serialize b = Ok out -> DeseralizeBlock out = Ok b.
Proof.
  intros Hb Hout. apply Serialize_Ok in Hout.
  unfold DeseralizeBlock. cbv zeta. rewrite (Decode_Encode b out Hb Hout). reflexivity.
Qed.

Lemma Serialize_total (b : Block) :
  well_typed b -> Z.of_nat (payload b) < 2 ^ 32 ->
  exists out, Serialize b = Ok out /\ (length out <= 144 + payload b)%nat.
Proof.
  intros Hb Hsize. destruct (Encode_total b Hb Hsize) as (out & Hout & Hlen).
  exists out. split; [apply Serialize_Ok; assumption | assumption].
Qed.

Module bolt_lemmas.
Import bolt.

Lemma Put_Ok (tx : Tx) (name key value : bytes) :
  (0 < length key)%nat -> Z.of_nat (length key) <= MaxKeySize ->
  Z.of_nat (length value) <= MaxValueSize ->
  Put tx name key value = Ok (<[name := <[key := value]> (default ∅ (tx !! name))]> tx).
Proof.
  intros Hk0 Hk Hv. unfold Put.
  destruct (length key =? 0)%nat eqn:E0; [apply Nat.eqb_eq in E0; lia|].
  destruct (_ >? MaxKeySize) eqn:E1; [zbool; lia|].
  destruct (_ >? MaxValueSize) eqn:E2; [zbool; lia|]. reflexivity.
Qed.

Lemma Put_key_ok (tx : Tx) (name key value : bytes) :
  (0 < length key)%nat -> Z.of_nat (length key) <= MaxKeySize ->
  Put tx name key value =
    if Z.of_nat (length value) >? MaxValueSize then Err ErrValueTooLarge
    else Ok (<[name := <[key := value]> (default ∅ (tx !! name))]> tx).
Proof.
  intros Hk0 Hk. unfold Put.
  destruct (length key =? 0)%nat eqn:E0; [apply Nat.eqb_eq in E0; lia|].
  destruct (_ >? MaxKeySize) eqn:E1; [zbool; lia|]. reflexivity.
Qed.

Lemma Put_Ok_inv (tx tx' : Tx) (name key value : bytes) :
  Put tx name key value = Ok tx' ->
  Z.of_nat (length value) <= MaxValueSize /\
  tx' = <[name := <[key := value]> (default ∅ (tx !! name))]> tx.
Proof.
  unfold Put. destruct (length key =? 0)%nat; [discriminate|].
  destruct (_ >? MaxKeySize); [discriminate|].
  destruct (_ >? MaxValueSize) eqn:E2; [discriminate|].
  intros [= <-]. zbool. split; [lia | reflexivity].
Qed.

Lemma Put_not_Fatal (tx : Tx) (name key value : bytes) (e : error) :
  Put tx name key value <> Fatal e.
Proof.
  unfold Put. destruct (length key =? 0)%nat; [discriminate|].
  destruct (_ >? MaxKeySize); [discriminate|].
  destruct (_ >? MaxValueSize); discriminate.
Qed.

End bolt_lemmas.
Import bolt_lemmas.

Section Store.
Context `{Hasher}.

(** [AddBlock] on a database with the bucket: the new block is mined on the
    tip pointer, encoded, and the two records are put. *)
Lemma AddBlock_bucket (now : Z) (data : string) (bc : Blockchain) (db : bolt.DB)
    (bucket : gmap bytes bytes) :
  db !! blocksBucket = Some bucket ->
  let newBlock := NewBlock now data (bolt.Get bucket (bytes_of_string "l")) in
  AddBlock now data bc db =
    match Serialize newBlock with
    | Ok encoded =>
        if Z.of_nat (length encoded) >? bolt.MaxValueSize then Fatal bolt.ErrValueTooLarge
        else Ok (mkBlockchain (Hash newBlock),
                 <[blocksBucket :=
                     <[bytes_of_string "l" := Hash newBlock]>
                       (<[Hash newBlock := encoded]> bucket)]> db)
    | Err e | Fatal e => Fatal e
    end.
Proof.
  intros Hbucket. cbv zeta.
  pose proof (NewBlock_Hash_length now data (bolt.Get bucket (bytes_of_string "l")))
    as Hlen.
  unfold AddBlock, bolt.View, bolt.Update, bolt.Bucket. rewrite Hbucket.
  cbv beta iota zeta delta [fatal mbind outcome_bind].
  revert Hlen. generalize (NewBlock now data (bolt.Get bucket (bytes_of_string "l"))).
  intros newBlock Hlen.
  destruct (Serialize newBlock) as [encoded|e|e] eqn:Hser.
  - rewrite (Put_key_ok db) by (rewrite Hlen; unfold bolt.MaxKeySize; lia).
    destruct (Z.of_nat (length encoded) >? bolt.MaxValueSize); [reflexivity|].
    rewrite Put_Ok
      by (rewrite ?Hlen; unfold bolt.MaxKeySize, bolt.MaxValueSize; simpl; lia).
    rewrite lookup_insert_eq, Hbucket. cbn [default].
    rewrite insert_insert_eq. reflexivity.
  - exfalso. exact (fatal_not_Err _ _ Hser).
  - reflexivity.
Qed.

(** [NewBlockchain] on a database that has the bucket: the tip pointer is
    read and nothing is written. *)
Lemma NewBlockchain_bucket (now : Z) (db : bolt.DB) (bucket : gmap bytes bytes) :
  db !! blocksBucket = Some bucket ->
  NewBlockchain now db = Ok (mkBlockchain (bolt.Get bucket (bytes_of_string "l")), db).
Proof.
  intros Hbucket. unfold NewBlockchain, bolt.Update, bolt.Bucket. rewrite Hbucket.
  reflexivity.
Qed.

Lemma NewGenesisBlock_Hash_length (now : Z) :
  length (Hash (NewGenesisBlock now)) = 32%nat.
Proof. unfold NewGenesisBlock. apply NewBlock_Hash_length. Qed.

Lemma NewGenesisBlock_well_typed (now : Z) :
  int64 now -> well_typed (NewGenesisBlock now).
Proof. unfold NewGenesisBlock. apply NewBlock_well_typed. Qed.

Lemma payload_genesis (now : Z) : payload (NewGenesisBlock now) = 45%nat.
Proof.
  unfold payload, NewGenesisBlock.
  destruct (NewBlock_fields now "Genesis Block" []) as (_ & -> & -> & _).
  rewrite NewBlock_Hash_length. reflexivity.
Qed.

(** [NewBlockchain] on a database without the bucket: the bucket is made
    with the record of the genesis block and the tip pointer. *)
Lemma NewBlockchain_no_bucket (now : Z) (db : bolt.DB) :
  int64 now -> db !! blocksBucket = None ->
  let genesis := NewGenesisBlock now in
  exists encoded,
    Serialize genesis = Ok encoded /\
    NewBlockchain now db =
      Ok (mkBlockchain (Hash genesis),
          <[blocksBucket :=
              <[bytes_of_string "l" := Hash genesis]> {[Hash genesis := encoded]}]> db).
Proof.
  intros Hnow Hnone. cbv zeta.
  pose proof (NewGenesisBlock_Hash_length now) as Hlen.
  pose proof (payload_genesis now) as Hpay.
  destruct (Serialize_total (NewGenesisBlock now)) as (encoded & Hser & Hsize).
  { apply NewGenesisBlock_well_typed. assumption. }
  { rewrite Hpay. lia. }
  rewrite Hpay in Hsize.
  exists encoded. split; [assumption|].
  unfold NewBlockchain, bolt.Update, bolt.Bucket, bolt.CreateBucket. rewrite Hnone.
  cbv beta iota zeta delta [fatal mbind outcome_bind ignore_err].
  change (length blocksBucket =? 0)%nat with false. cbv iota.
  clear Hpay. revert Hlen Hser.
  generalize (NewGenesisBlock now). intros genesis Hlen Hser. rewrite Hser.
  rewrite !Put_Ok
    by (rewrite ?Hlen; unfold bolt.MaxKeySize, bolt.MaxValueSize; simpl; lia).
  rewrite !lookup_insert_eq. cbv beta iota delta [default from_option id].
  rewrite !insert_insert_eq. rewrite insert_empty. reflexivity.
Qed.

End Store.

(** [Next] at a hash that has a record. *)
Lemma Next_record (i : BlockchainIterator) (db : bolt.DB) (bucket : gmap bytes bytes)
    (encoded : bytes) (b : Block) :
  db !! blocksBucket = Some bucket ->
  bucket !! currentHash i = Some encoded ->
  DeseralizeBlock encoded = Ok b ->
  Next i db = Ok (b, mkIterator (PrevBlockHash b)).
Proof.
  intros Hbucket Hrec Hdec. unfold Next, bolt.View, bolt.Bucket, bolt.Get.
  rewrite Hbucket, Hrec. cbv beta iota delta [default from_option id].
  rewrite Hdec. reflexivity.
Qed.

(** [Next] at a hash that has no record: nothing to decode, and the
    process ends. *)
Lemma Next_no_record (i : BlockchainIterator) (db : bolt.DB) (bucket : gmap bytes bytes) :
  db !! blocksBucket = Some bucket ->
  bucket !! currentHash i = None ->
  Next i db = Fatal io.EOF.
Proof.
  intros Hbucket Hrec. unfold Next, bolt.View, bolt.Bucket, bolt.Get.
  rewrite Hbucket, Hrec. reflexivity.
Qed.

Lemma Next_no_bucket (i : BlockchainIterator) (db : bolt.DB) :
  db !! blocksBucket = None ->
  Next i db = Fatal "error fetching block, blocks bucket does not exist"%string.
Proof.
  intros Hbucket. unfold Next, bolt.View, bolt.Bucket. rewrite Hbucket. reflexivity.
Qed.

(** ** The chain in the database *)


Section Chain.
Context `{Hasher}.

Lemma AddBlock_no_bucket (now : Z) (data : string) (bc : Blockchain) (db : bolt.DB) :
  db !! blocksBucket = None ->
  AddBlock now data bc db
  = Fatal "error getting last block, could not find blocks bucket"%string.
Proof.
  intros Hnone. unfold AddBlock, bolt.View, bolt.Bucket. rewrite Hnone. reflexivity.
Qed.

(** A call of [AddBlock] that returns has put two records in the bucket. *)
Lemma AddBlock_Ok (now : Z) (data : string) (bc bc' : Blockchain) (db db' : bolt.DB) :
  AddBlock now data bc db = Ok (bc', db') ->
  exists bucket encoded,
    db !! blocksBucket = Some bucket /\
    Serialize (NewBlock now data (bolt.Get bucket (bytes_of_string "l"))) = Ok encoded /\
    Z.of_nat (length encoded) <= bolt.MaxValueSize /\
    bc' = mkBlockchain (Hash (NewBlock now data (bolt.Get bucket (bytes_of_string "l")))) /\
    db' = <[blocksBucket :=
              <[bytes_of_string "l" :=
                  Hash (NewBlock now data (bolt.Get bucket (bytes_of_string "l")))]>
                (<[Hash (NewBlock now data (bolt.Get bucket (bytes_of_string "l"))) :=
                     encoded]> bucket)]> db.
Proof.
  intros H0. destruct (db !! blocksBucket) as [bucket|] eqn:Hbucket.
  - rewrite (AddBlock_bucket now data bc db bucket Hbucket) in H0.
    exists bucket. revert H0.
    generalize (NewBlock now data (bolt.Get bucket (bytes_of_string "l"))).
    intros newBlock.
    destruct (Serialize newBlock) as [encoded|e|e]; try discriminate.
    destruct (_ >? _) eqn:Hsize; [discriminate|].
    intros [= <- <-]. exists encoded. zbool.
    split; [reflexivity|]. split; [reflexivity|]. split; [lia|]. split; reflexivity.
  - rewrite AddBlock_no_bucket in H0 by assumption. discriminate.
Qed.

Lemma tip_Get (bucket : gmap bytes bytes) (h : bytes) :
  bucket !! bytes_of_string "l" = Some h -> bolt.Get bucket (bytes_of_string "l") = h.
Proof. intros Hl. unfold bolt.Get. rewrite Hl. reflexivity. Qed.

Lemma stored_extend (now : Z) (data : string) (bc bc' : Blockchain)
    (db db' : bolt.DB) (bs : list Block) :
  stored db bs -> hashes_ok bs ->
  AddBlock now data bc db = Ok (bc', db') ->
  Hash (NewBlock now data (tip_of bs)) ∉ Hash <$> bs ->
  stored db' (extend bs (now, data)) /\ tip bc' = tip_of (extend bs (now, data)).
Proof.
  intros (bucket & Hbucket & Htip & Hrecs) Hlens Hadd Hfresh.
  apply AddBlock_Ok in Hadd as (bucket' & encoded & Hbucket' & Hser & _ & -> & ->).
  rewrite Hbucket in Hbucket'. injection Hbucket' as <-.
  rewrite (tip_Get bucket _ Htip) in *.
  unfold extend. cbn [fst snd tip_of tip].
  pose proof (NewBlock_Hash_length now data (tip_of bs)) as Hlen.
  revert Hser Hfresh Hlen. generalize (NewBlock now data (tip_of bs)).
  intros nb Hser Hfresh Hlen.
  assert (Hne : bytes_of_string "l" <> Hash nb).
  { intros Heq. rewrite <- Heq in Hlen. discriminate. }
  split; [|reflexivity].
  exists (<[bytes_of_string "l" := Hash nb]> (<[Hash nb := encoded]> bucket)).
  split; [apply lookup_insert_eq|]. split; [apply lookup_insert_eq|].
  intros b Hb. apply elem_of_cons in Hb as [->|Hb].
  - exists encoded. split; [assumption|].
    rewrite lookup_insert_ne by assumption. apply lookup_insert_eq.
  - destruct (Hrecs b Hb) as (enc & Henc & Hrec). exists enc. split; [assumption|].
    assert (Hlenb : length (Hash b) = 32%nat).
    { unfold hashes_ok in Hlens. rewrite Forall_forall in Hlens. apply Hlens, Hb. }
    rewrite lookup_insert_ne
      by (intros Heq; rewrite <- Heq in Hlenb; discriminate).
    rewrite lookup_insert_ne; [assumption|].
    intros Heq. apply Hfresh. rewrite Heq. apply list_elem_of_fmap_2. assumption.
Qed.

Lemma hashes_ok_extend (bs : list Block) (call : Z * string) :
  hashes_ok bs -> hashes_ok (extend bs call).
Proof.
  intros Hbs. unfold extend, hashes_ok. apply List.Forall_cons; [|assumption].
  apply NewBlock_Hash_length.
Qed.

Lemma extend_suffix (calls : list (Z * string)) :
  forall bs, exists newer, foldl extend bs calls = newer ++ bs.
Proof.
  induction calls as [|call calls IH]; intros bs.
  - exists []. reflexivity.
  - cbn [foldl]. destruct (IH (extend bs call)) as (newer & ->).
    exists (newer ++ [NewBlock (fst call) (snd call) (tip_of bs)]).
    unfold extend. rewrite <- app_assoc. reflexivity.
Qed.

(** The calls of [AddBlock] keep the database holding the chain. *)
Lemma stored_AddBlocks (calls : list (Z * string)) :
  forall bs bc db bc' db',
    stored db bs -> hashes_ok bs -> tip bc = tip_of bs ->
    AddBlocks calls bc db = Ok (bc', db') ->
    NoDup (Hash <$> foldl extend bs calls) ->
    stored db' (foldl extend bs calls) /\ tip bc' = tip_of (foldl extend bs calls).
Proof.
  induction calls as [|[now data] calls IH]; intros bs bc db bc' db' Hst Hlens Htip Hrun Hnd.
  - cbn in Hrun. injection Hrun as <- <-. split; assumption.
  - cbn [AddBlocks] in Hrun.
    destruct (AddBlock now data bc db) as [[bc1 db1]| |] eqn:Hadd;
      cbn [mbind outcome_bind] in Hrun; try discriminate.
    cbn [foldl] in *.
    destruct (extend_suffix calls (extend bs (now, data))) as (newer & Heq).
    assert (Hfresh : Hash (NewBlock now data (tip_of bs)) ∉ Hash <$> bs).
    { rewrite Heq in Hnd. rewrite fmap_app in Hnd.
      apply NoDup_app in Hnd as (_ & _ & Hnd).
      unfold extend in Hnd. cbn [fst snd] in Hnd. rewrite fmap_cons in Hnd.
      apply NoDup_cons in Hnd as [Hnotin _]. exact Hnotin. }
    destruct (stored_extend now data bc bc1 db db1 bs Hst Hlens Hadd Hfresh)
      as [Hst1 Htip1].
    apply (IH _ bc1 db1); try assumption. apply hashes_ok_extend. assumption.
Qed.

Lemma linked_extend (bs : list Block) (call : Z * string) :
  bs <> [] -> linked bs -> linked (extend bs call).
Proof.
  intros Hne Hl. destruct bs as [|p rest]; [contradiction|].
  unfold extend. cbn [linked tip_of]. split; [|assumption].
  destruct (NewBlock_fields (fst call) (snd call) (Hash p)) as (_ & _ & Hprev & _).
  exact Hprev.
Qed.

Lemma linked_foldl (calls : list (Z * string)) :
  forall bs, bs <> [] -> linked bs -> linked (foldl extend bs calls).
Proof.
  induction calls as [|call calls IH]; intros bs Hne Hl; [assumption|].
  cbn [foldl]. apply IH; [discriminate | apply linked_extend; assumption].
Qed.

Lemma linked_chain (now0 : Z) (calls : list (Z * string)) : linked (chain now0 calls).
Proof.
  unfold chain. apply linked_foldl; [discriminate|]. cbn [linked].
  unfold NewGenesisBlock.
  destruct (NewBlock_fields now0 "Genesis Block" []) as (_ & _ & Hprev & _). exact Hprev.
Qed.

Lemma length_foldl_extend (calls : list (Z * string)) :
  forall bs, length (foldl extend bs calls) = (length calls + length bs)%nat.
Proof.
  induction calls as [|call calls IH]; intros bs; [reflexivity|].
  cbn [foldl length]. rewrite IH. unfold extend. cbn [length]. lia.
Qed.

Lemma length_chain (now0 : Z) (calls : list (Z * string)) :
  length (chain now0 calls) = S (length calls).
Proof. unfold chain. rewrite length_foldl_extend. cbn [length]. lia. Qed.

Lemma well_typed_foldl (calls : list (Z * string)) :
  forall bs, Forall (fun call => int64 (fst call)) calls -> Forall well_typed bs ->
    Forall well_typed (foldl extend bs calls).
Proof.
  induction calls as [|call calls IH]; intros bs Hcalls Hbs; [assumption|].
  inversion Hcalls; subst. cbn [foldl]. apply IH; [assumption|].
  unfold extend. apply List.Forall_cons; [|assumption].
  apply NewBlock_well_typed. assumption.
Qed.

Lemma well_typed_chain (now0 : Z) (calls : list (Z * string)) :
  int64 now0 -> Forall (fun call => int64 (fst call)) calls ->
  Forall well_typed (chain now0 calls).
Proof.
  intros Hnow Hcalls. unfold chain. apply well_typed_foldl; [assumption|].
  apply List.Forall_cons; [|apply List.Forall_nil].
  apply NewGenesisBlock_well_typed. assumption.
Qed.

End Chain.

(** From the hash of the newest of linked blocks held by the database,
    [Next] returns them one after the other. *)
Lemma Nexts_stored (db : bolt.DB) (bucket : gmap bytes bytes) (bs : list Block) :
  db !! blocksBucket = Some bucket ->
  linked bs -> Forall well_typed bs ->
  (forall b, b ∈ bs ->
     exists encoded, Serialize b = Ok encoded /\ bucket !! Hash b = Some encoded) ->
  Nexts (length bs) (mkIterator (tip_of bs)) db = Ok bs.
Proof.
  intros Hbucket. induction bs as [|b rest IH]; intros Hl Hwt Hrecs; [reflexivity|].
  inversion Hwt as [|? ? Hb Hrest]; subst.
  destruct (Hrecs b (list_elem_of_here b rest)) as (encoded & Hser & Hrec).
  cbn [length Nexts tip_of].
  rewrite (Next_record (mkIterator (Hash b)) db bucket encoded b Hbucket Hrec
             (DeseralizeBlock_Serialize b encoded Hb Hser)).
  cbn [mbind outcome_bind].
  assert (Hprev : PrevBlockHash b = tip_of rest /\ linked rest).
  { destruct rest as [|p rest']; cbn [linked tip_of] in *; [split; [assumption|exact I]|].
    exact Hl. }
  destruct Hprev as [-> Hlrest].
  rewrite IH; [reflexivity|assumption|assumption|].
  intros b' Hb'. apply Hrecs. apply list_elem_of_further. assumption.
Qed.

(** ** Mining and validation *)

Lemma FormatInt_decimal (i : Z) : decimal_value (strconv.FormatInt i) = Some i.
Proof.
  unfold decimal_value, strconv.FormatInt.
  rewrite NilZero.isi.
  - cbn [option_map]. rewrite DecimalZ.of_to. reflexivity.
  - destruct i as [|p|p]; cbn [Z.to_int]; try discriminate.
    intros [= Hnil]. exact (DecimalPos.Unsigned.to_uint_nonnil p Hnil).
  - destruct i as [|p|p]; cbn [Z.to_int]; try discriminate.
    intros [= Hnil]. exact (DecimalPos.Unsigned.to_uint_nonnil p Hnil).
Qed.

Lemma below_target_digestInt `{Hasher} (pow : ProofOfWork) (nonce : Z) :
  below_target pow nonce = (digestInt pow nonce <? target pow).
Proof.
  unfold below_target, digestInt.
  destruct (_ <? _) eqn:E.
  - apply Cmp_lt. zbool. assumption.
  - destruct (big.Cmp _ _ =? -1) eqn:E'; [|reflexivity].
    apply Cmp_lt in E'. zbool. lia.
Qed.

Lemma below_target_false `{Hasher} (pow : ProofOfWork) (nonce : Z) :
  below_target pow nonce = false <-> target pow <= digestInt pow nonce.
Proof. rewrite below_target_digestInt. rewrite Z.ltb_ge. reflexivity. Qed.

Lemma below_target_true `{Hasher} (pow : ProofOfWork) (nonce : Z) :
  below_target pow nonce = true <-> digestInt pow nonce < target pow.
Proof. rewrite below_target_digestInt. apply Z.ltb_lt. Qed.

(** The loop of [Run] as an equation. *)
Lemma Run_from_equation `{Hasher} (pow : ProofOfWork) (nonce : Z) (hash : bytes) :
  0 <= nonce ->
  Run_from pow nonce hash =
    if nonce <? maxNonce then
      if digestInt pow nonce <? target pow
      then (nonce, Sum256 (prepareData pow nonce))
      else Run_from pow (nonce + 1) (Sum256 (prepareData pow nonce))
    else (nonce, hash).
Proof.
  intros Hnonce. rewrite Run_from_unfold by assumption. unfold Run_round.
  destruct (nonce <? maxNonce); [|reflexivity].
  cbv zeta. fold (below_target pow nonce). rewrite below_target_digestInt. reflexivity.
Qed.

(** Two digest functions that agree at the nonces below [maxNonce] give the
    same search. *)
Lemma Run_from_ext (H1 H2 : Hasher) (pow : ProofOfWork) :
  (forall j, 0 <= j < maxNonce ->
     @Sum256 H1 (prepareData pow j) = @Sum256 H2 (prepareData pow j)) ->
  forall nonce, nonce <= maxNonce -> forall hash, 0 <= nonce ->
    @Run_from H1 pow nonce hash = @Run_from H2 pow nonce hash.
Proof.
  intros Hagree.
  apply (Z.left_induction
    (fun nonce => forall hash, 0 <= nonce ->
       @Run_from H1 pow nonce hash = @Run_from H2 pow nonce hash)).
  - intros x y ->. reflexivity.
  - intros hash H0. rewrite !Run_from_exit by lia. reflexivity.
  - intros nonce Hlt IH hash H0.
    rewrite (@Run_from_equation H1), (@Run_from_equation H2) by assumption.
    unfold digestInt. rewrite (Hagree nonce) by lia.
    destruct (nonce <? maxNonce); [|reflexivity].
    destruct (_ <? target pow); [reflexivity|].
    apply IH. lia.
Qed.

(** C3. [Run] starts at nonce 0 and goes upward one by one, testing the
    digest of each nonce, read as a big-endian number, against the target;
    no nonce below the one it returns has a digest below the target; and
    when some nonce below [maxNonce] has one, [Run] returns the first such
    nonce together with its digest. *)
Theorem Run_first_nonce `{Hasher} (pow : ProofOfWork) :
  Run pow = Run_from pow 0 (repeat x00 32) /\
  (forall nonce hash, 0 <= nonce ->
     Run_from pow nonce hash =
       if nonce <? maxNonce then
         if digestInt pow nonce <? target pow
         then (nonce, Sum256 (prepareData pow nonce))
         else Run_from pow (nonce + 1) (Sum256 (prepareData pow nonce))
       else (nonce, hash)) /\
  (forall j, 0 <= j < fst (Run pow) -> target pow <= digestInt pow j) /\
  (forall m, 0 <= m < maxNonce -> digestInt pow m < target pow ->
     (forall j, 0 <= j < m -> target pow <= digestInt pow j) ->
     Run pow = (m, Sum256 (prepareData pow m))) /\
  (forall m, 0 <= m < maxNonce -> digestInt pow m < target pow ->
     0 <= fst (Run pow) <= m /\
     digestInt pow (fst (Run pow)) < target pow /\
     snd (Run pow) = Sum256 (prepareData pow (fst (Run pow)))).
Proof.
  split; [reflexivity|]. split; [apply Run_from_equation|].
  destruct (Run_spec pow) as (n & h & Hrun & Hn & Hmiss & Hlow & Hmax).
  rewrite Hrun. cbn [fst snd]. split; [|split].
  - intros j Hj. apply below_target_false, Hmiss, Hj.
  - intros m Hm Hhit Hbelow. rewrite <- Hrun. unfold Run. cbv zeta.
    apply Run_from_first_hit; try lia.
    + apply below_target_true. assumption.
    + intros j Hj. apply below_target_false, Hbelow. lia.
  - intros m Hm Hhit.
    assert (Hnm : n <= m).
    { destruct (Z.le_gt_cases n m) as [Hle|Hgt]; [assumption|].
      apply below_target_true in Hhit. rewrite Hmiss in Hhit by lia. discriminate. }
    destruct Hlow as [Hbelow ->]; [lia|].
    split; [lia|]. split; [apply below_target_true; assumption | reflexivity].
Qed.

Lemma Run_first_nonce_witness :
  Run (H := sha256_hasher) (NewProofOfWork genesis_candidate)
  = (3, sha256.Sum256 (prepareData (NewProofOfWork genesis_candidate) 3)).
Proof.
  destruct (Run_first_nonce (H := sha256_hasher) (NewProofOfWork genesis_candidate))
    as (_ & _ & _ & Hfirst & _).
  apply (Hfirst 3).
  - vm_compute. split; [discriminate | reflexivity].
  - vm_compute. reflexivity.
  - intros j Hj.
    assert (Hcases : j = 0 \/ j = 1 \/ j = 2) by lia.
    destruct Hcases as [->|[->| ->]]; vm_compute; discriminate.
Defined.

(** C9. When no nonce from 0 to [maxNonce - 1] has a digest below the
    target, [Run] returns [maxNonce], which is [2^63 - 1], with the digest
    of the nonce [maxNonce - 1]: that digest is not below the target, and
    the digest of [maxNonce] itself plays no part, the search being the
    same for every digest function that agrees at the nonces below
    [maxNonce]. *)
Theorem Run_no_nonce {H : Hasher} (pow : ProofOfWork) :
  (forall j, 0 <= j < maxNonce -> target pow <= digestInt pow j) ->
  maxNonce = 2 ^ 63 - 1 /\
  Run pow = (maxNonce, Sum256 (prepareData pow (maxNonce - 1))) /\
  target pow <= big.SetBytes (snd (Run pow)) /\
  (forall H' : Hasher,
     (forall j, 0 <= j < maxNonce ->
        @Sum256 H' (prepareData pow j) = @Sum256 H (prepareData pow j)) ->
     @Run H' pow = @Run H pow).
Proof.
  intros Hmiss. split; [reflexivity|].
  assert (Hrun : Run pow = (maxNonce, Sum256 (prepareData pow (maxNonce - 1)))).
  { unfold Run. cbv zeta. apply Run_from_no_hit; try (pose proof maxNonce_pos; lia).
    intros j Hj. apply below_target_false, Hmiss. lia. }
  split; [assumption|]. split.
  - rewrite Hrun. cbn [snd]. apply (Hmiss (maxNonce - 1)). pose proof maxNonce_pos. lia.
  - intros H' Hagree. unfold Run. cbv zeta.
    apply (Run_from_ext H' H pow); [assumption | pose proof maxNonce_pos; lia | lia].
Qed.

Lemma Run_no_nonce_witness :
  Run (H := ones_hasher) (NewProofOfWork genesis_candidate)
  = (9223372036854775807, repeat xff 32).
Proof.
  destruct (Run_no_nonce (H := ones_hasher) (NewProofOfWork genesis_candidate))
    as (_ & Hrun & _).
  - intros j _. vm_compute. discriminate.
  - exact Hrun.
Defined.

(** A block for which the search found a nonce: the digest of its nonce is
    below the target and is its hash. *)
Lemma NewBlock_found `{Hasher} (now : Z) (data : string) (prev : bytes) :
  Nonce (NewBlock now data prev) < maxNonce ->
  below_target (NewProofOfWork (NewBlock now data prev)) (Nonce (NewBlock now data prev))
  = true /\
  Hash (NewBlock now data prev)
  = Sum256 (prepareData (NewProofOfWork (NewBlock now data prev))
              (Nonce (NewBlock now data prev))).
Proof.
  intros Hfound.
  destruct (NewBlock_fields now data prev) as (Hts & Hdata & Hprev & Hnonce & Hhash).
  set (candidate := mkBlock now (bytes_of_string data) prev [] 0) in *.
  rewrite (below_target_fields _ candidate), (prepareData_fields _ candidate)
    by assumption.
  rewrite Hhash, Hnonce in *.
  destruct (Run_spec (NewProofOfWork candidate)) as (n & h & Hrun & _ & _ & Hlow & _).
  rewrite Hrun in *. cbn [fst snd] in *. apply Hlow. assumption.
Qed.

(** When some nonce below [maxNonce] has a digest below the target, the
    search of [NewBlock] ends below [maxNonce]. *)
Lemma NewBlock_mines `{Hasher} (now : Z) (data : string) (prev : bytes) :
  has_proof now data prev -> Nonce (NewBlock now data prev) < maxNonce.
Proof.
  intros (nonce & Hrange & Hlow).
  destruct (NewBlock_fields now data prev) as (_ & _ & _ & Hnonce & _).
  cbv zeta in Hnonce. rewrite Hnonce.
  set (candidate := mkBlock now (bytes_of_string data) prev [] 0).
  destruct (Run_spec (NewProofOfWork candidate)) as (n & h & Hrun & Hn & Hmiss & _).
  rewrite Hrun. cbn [fst].
  destruct (Z.lt_ge_cases n maxNonce) as [Hlt|Hge]; [exact Hlt|].
  exfalso.
  assert (Hbelow : below_target (NewProofOfWork candidate) nonce = true).
  { apply below_target_lt. exact Hlow. }
  rewrite (Hmiss nonce ltac:(lia)) in Hbelow. discriminate.
Qed.

(** C1. Every block of [NewBlock] passes [Validate], some nonce below
    [maxNonce] having a digest below the target (without one the search
    finds nothing, which is C9); and a block whose nonce is set to a value
    whose digest is not below the target fails [Validate]. *)
Theorem proof_validity `{Hasher} (now : Z) (data : string) (prev : bytes) :
  (has_proof now data prev ->
   Validate (NewProofOfWork (NewBlock now data prev)) = true) /\
  (forall (b : Block) (nonce : Z),
     target (NewProofOfWork b) <= digestInt (NewProofOfWork b) nonce ->
     Validate (NewProofOfWork (with_nonce b nonce)) = false).
Proof.
  split.
  - intros Hproof. rewrite Validate_below_target.
    apply NewBlock_found. apply NewBlock_mines. exact Hproof.
  - intros b nonce Hmiss. rewrite Validate_below_target.
    rewrite (below_target_fields _ b) by reflexivity.
    apply below_target_false. assumption.
Qed.

Lemma proof_validity_witness :
  Validate (H := sha256_hasher)
    (NewProofOfWork (NewBlock (H := sha256_hasher) 1710872071 "Genesis Block" [])) = true /\
  Validate (H := sha256_hasher)
    (NewProofOfWork
       (with_nonce (NewBlock (H := sha256_hasher) 1710872070 "Genesis Block" []) 2)) = false.
Proof.
  destruct (proof_validity (H := sha256_hasher) 1710872071 "Genesis Block" [])
    as [Hvalid Hinvalid].
  split.
  - apply Hvalid. exists 5906805. split; [unfold maxNonce, MaxInt64; lia|].
    vm_compute. reflexivity.
  - apply Hinvalid. vm_compute. discriminate.
Defined.

(** C10. The genesis block is [NewBlock] of the string "Genesis Block" and
    the empty previous hash: these are its data and its previous hash, and,
    some nonce below [maxNonce] having a digest below the target, it passes
    [Validate] and its hash is the digest of its nonce, below the target. *)
Theorem genesis_mined `{Hasher} (now : Z) :
  NewGenesisBlock now = NewBlock now "Genesis Block" [] /\
  Data (NewGenesisBlock now) = bytes_of_string "Genesis Block" /\
  hex (Data (NewGenesisBlock now)) = "47656e6573697320426c6f636b"%string /\
  PrevBlockHash (NewGenesisBlock now) = [] /\
  Timestamp (NewGenesisBlock now) = now /\
  (has_proof now "Genesis Block" [] ->
   Validate (NewProofOfWork (NewGenesisBlock now)) = true /\
   Hash (NewGenesisBlock now)
   = Sum256 (prepareData (NewProofOfWork (NewGenesisBlock now))
               (Nonce (NewGenesisBlock now))) /\
   big.SetBytes (Hash (NewGenesisBlock now)) < target (NewProofOfWork (NewGenesisBlock now))).
Proof.
  split; [reflexivity|]. unfold NewGenesisBlock.
  destruct (NewBlock_fields now "Genesis Block" []) as (Hts & Hdata & Hprev & Hnonce & Hhash).
  split; [assumption|]. split; [rewrite Hdata; reflexivity|].
  split; [assumption|]. split; [assumption|].
  intros Hproof.
  destruct (NewBlock_found now "Genesis Block" []
              (NewBlock_mines now "Genesis Block" [] Hproof)) as [Hbelow Hdigest].
  split; [rewrite Validate_below_target; assumption|].
  split; [assumption|].
  rewrite Hdigest. apply below_target_true in Hbelow. exact Hbelow.
Qed.

Lemma genesis_mined_witness :
  Validate (H := sha256_hasher) (NewProofOfWork (NewGenesisBlock (H := sha256_hasher) 1710872071))
  = true.
Proof.
  destruct (genesis_mined (H := sha256_hasher) 1710872071) as (_ & _ & _ & _ & _ & Hproof).
  apply Hproof. exists 5906805. split; [unfold maxNonce, MaxInt64; lia|].
  vm_compute. reflexivity.
Defined.

(** ** Building and walking the chain *)


Lemma length_bytes_of_string (s : string) :
  length (bytes_of_string s) = String.length s.
Proof.
  unfold bytes_of_string, list_byte_of_string. rewrite length_map.
  induction s as [|c s IH]; [reflexivity|]. cbn. rewrite IH. reflexivity.
Qed.

Section Building.
Context `{Hasher}.

Lemma AddBlock_returns (now : Z) (data : string) (bc : Blockchain) (db : bolt.DB) :
  ready db -> call_ok (now, data) ->
  exists bc' db', AddBlock now data bc db = Ok (bc', db') /\ ready db'.
Proof.
  intros (bucket & h & Hbucket & Htip & Hh) [Hnow Hdata]. cbn [fst snd] in *.
  rewrite (AddBlock_bucket now data bc db bucket Hbucket).
  rewrite (tip_Get bucket h Htip).
  pose proof (NewBlock_well_typed now data h Hnow) as Hwt.
  pose proof (NewBlock_Hash_length now data h) as Hlen.
  destruct (NewBlock_fields now data h) as (_ & Hd & Hp & _).
  assert (Hpay : payload (NewBlock now data h) = (String.length data + 32 + 32)%nat).
  { unfold payload. rewrite Hd, Hp, Hlen, Hh, length_bytes_of_string. reflexivity. }
  clear Hd Hp. revert Hwt Hlen Hpay. generalize (NewBlock now data h).
  intros nb Hwt Hlen Hpay.
  destruct (Serialize_total nb Hwt) as (encoded & -> & Hsize); [rewrite Hpay; lia|].
  destruct (_ >? _) eqn:E; [unfold bolt.MaxValueSize in E; zbool; lia|].
  eexists _, _. split; [reflexivity|].
  exists (<[bytes_of_string "l" := Hash nb]> (<[Hash nb := encoded]> bucket)), (Hash nb).
  split; [apply lookup_insert_eq|]. split; [apply lookup_insert_eq | assumption].
Qed.

Lemma AddBlocks_returns (calls : list (Z * string)) :
  forall bc db, ready db -> Forall call_ok calls ->
    exists bc' db', AddBlocks calls bc db = Ok (bc', db').
Proof.
  induction calls as [|[now data] calls IH]; intros bc db Hready Hcalls.
  - eexists _, _. reflexivity.
  - inversion Hcalls as [|? ? Hcall Hrest]; subst.
    destruct (AddBlock_returns now data bc db Hready Hcall) as (bc1 & db1 & Hadd & Hready1).
    cbn [AddBlocks]. rewrite Hadd. cbn [mbind outcome_bind]. apply IH; assumption.
Qed.

Lemma build_returns (now0 : Z) (calls : list (Z * string)) (db : bolt.DB) :
  db !! blocksBucket = None -> int64 now0 -> Forall call_ok calls ->
  exists bc db', build now0 calls db = Ok (bc, db').
Proof.
  intros Hnone Hnow Hcalls. unfold build.
  destruct (NewBlockchain_no_bucket now0 db Hnow Hnone) as (encoded & _ & ->).
  cbn [mbind outcome_bind]. apply AddBlocks_returns; [|assumption].
  eexists _, _. split; [apply lookup_insert_eq|].
  split; [apply lookup_insert_eq | apply NewGenesisBlock_Hash_length].
Qed.

Lemma hashes_ok_chain (now0 : Z) (calls : list (Z * string)) :
  hashes_ok (chain now0 calls).
Proof.
  unfold chain.
  assert (Hgen : forall cs bs, hashes_ok bs -> hashes_ok (foldl extend bs cs)).
  { induction cs as [|c cs IH]; intros bs Hbs; [assumption|].
    cbn [foldl]. apply IH, hashes_ok_extend, Hbs. }
  apply Hgen. apply List.Forall_cons; [apply NewGenesisBlock_Hash_length | apply List.Forall_nil].
Qed.

(** After [build], the database holds the chain. *)
Lemma stored_build (now0 : Z) (calls : list (Z * string)) (db db' : bolt.DB)
    (bc : Blockchain) :
  db !! blocksBucket = None -> int64 now0 ->
  build now0 calls db = Ok (bc, db') ->
  NoDup (Hash <$> chain now0 calls) ->
  stored db' (chain now0 calls) /\ tip bc = tip_of (chain now0 calls).
Proof.
  intros Hnone Hnow Hbuild Hnd. unfold build in Hbuild.
  destruct (NewBlockchain_no_bucket now0 db Hnow Hnone) as (encoded & Hser & Hnew).
  rewrite Hnew in Hbuild. cbn [mbind outcome_bind] in Hbuild.
  pose proof (NewGenesisBlock_Hash_length now0) as Hlen.
  unfold chain in *.
  revert Hbuild Hnd Hser Hlen. generalize (NewGenesisBlock now0).
  intros genesis Hbuild Hnd Hser Hlen.
  eapply stored_AddBlocks; try eassumption.
  - exists (<[bytes_of_string "l" := Hash genesis]> {[Hash genesis := encoded]}).
    split; [apply lookup_insert_eq|]. split; [apply lookup_insert_eq|].
    intros b Hb. apply list_elem_of_singleton in Hb as ->.
    exists encoded. split; [assumption|].
    rewrite lookup_insert_ne by (intros Heq; rewrite <- Heq in Hlen; discriminate).
    apply lookup_singleton_eq.
  - apply List.Forall_cons; [assumption | apply List.Forall_nil].
  - reflexivity.
Qed.

End Building.

Lemma linked_lookup (bs : list Block) :
  linked bs ->
  forall i b b', bs !! i = Some b -> bs !! S i = Some b' -> PrevBlockHash b = Hash b'.
Proof.
  induction bs as [|x rest IH]; intros Hl i b b' Hi HSi; [discriminate|].
  destruct rest as [|p rest']; [destruct i; discriminate|].
  cbn [linked] in Hl. destruct Hl as [Hx Hrest].
  destruct i as [|i].
  - cbn in Hi, HSi. injection Hi as <-. injection HSi as <-. assumption.
  - apply (IH Hrest i); assumption.
Qed.

Lemma linked_last (bs : list Block) (g : Block) :
  linked bs -> last bs = Some g -> PrevBlockHash g = [].
Proof.
  induction bs as [|x rest IH]; intros Hl Hlast; [discriminate|].
  destruct rest as [|p rest'].
  - cbn in Hlast. injection Hlast as <-. exact Hl.
  - cbn [linked] in Hl. destruct Hl as [_ Hrest]. apply IH; [assumption|].
    rewrite <- Hlast. reflexivity.
Qed.

Lemma last_chain `{Hasher} (now0 : Z) (calls : list (Z * string)) :
  last (chain now0 calls) = Some (NewGenesisBlock now0).
Proof.
  unfold chain. destruct (extend_suffix calls [NewGenesisBlock now0]) as (newer & ->).
  apply last_snoc.
Qed.

(** C5. On a database without the bucket, [NewBlockchain] and then N calls
    of [AddBlock], with clock readings and strings of the Go types, build a
    chain; when the hashes of its blocks are pairwise distinct, N+1 calls of
    [Next] from [Iterator] return the N+1 blocks, newest first, each naming
    as its previous hash the hash of the block returned after it, and the
    last returned, the genesis block, with the empty previous hash, which no
    block before it has. *)
Theorem chain_linkage `{Hasher} (now0 : Z) (calls : list (Z * string)) (db : bolt.DB) :
  db !! blocksBucket = None -> int64 now0 -> Forall call_ok calls ->
  NoDup (Hash <$> chain now0 calls) ->
  exists bc db' blocks,
    build now0 calls db = Ok (bc, db') /\
    Nexts (S (length calls)) (Iterator bc) db' = Ok blocks /\
    blocks = chain now0 calls /\
    length blocks = S (length calls) /\
    (forall i b b', blocks !! i = Some b -> blocks !! S i = Some b' ->
       PrevBlockHash b = Hash b') /\
    (forall g, last blocks = Some g -> g = NewGenesisBlock now0 /\ PrevBlockHash g = []) /\
    (forall i b, (i < length calls)%nat -> blocks !! i = Some b -> PrevBlockHash b <> []).
Proof.
  intros Hnone Hnow Hcalls Hnd.
  destruct (build_returns now0 calls db Hnone Hnow Hcalls) as (bc & db' & Hbuild).
  destruct (stored_build now0 calls db db' bc Hnone Hnow Hbuild Hnd)
    as [(bucket & Hbucket & Htip & Hrecs) Htipbc].
  pose proof (linked_chain now0 calls) as Hlinked.
  pose proof (length_chain now0 calls) as Hlen.
  exists bc, db', (chain now0 calls).
  split; [assumption|]. split; [|split; [reflexivity|split; [assumption|split; [|split]]]].
  - unfold Iterator. rewrite Htipbc, <- Hlen.
    apply (Nexts_stored db' bucket); try assumption.
    apply well_typed_chain; [assumption|].
    eapply Forall_impl; [exact Hcalls|]. intros call [Hc _]. exact Hc.
  - apply linked_lookup. assumption.
  - intros g Hlast. rewrite last_chain in Hlast. injection Hlast as <-.
    split; [reflexivity|]. apply (linked_last (chain now0 calls)); [assumption|].
    apply last_chain.
  - intros i b Hi Hb.
    destruct (lookup_lt_is_Some_2 (chain now0 calls) (S i) ltac:(lia)) as [b' Hb'].
    rewrite (linked_lookup _ Hlinked i b b' Hb Hb').
    pose proof (hashes_ok_chain now0 calls) as Hok. unfold hashes_ok in Hok.
    rewrite Forall_forall in Hok.
    pose proof (Hok b' (list_elem_of_lookup_2 _ _ _ Hb')) as Hl.
    intros Heq. rewrite Heq in Hl. discriminate.
Qed.


Lemma chain_linkage_witness :
  exists bc db',
    build (H := sha256_hasher) 1710872070 demo_calls ∅ = Ok (bc, db') /\
    Nexts 4 (Iterator bc) db' = Ok (chain (H := sha256_hasher) 1710872070 demo_calls).
Proof.
  destruct (chain_linkage (H := sha256_hasher) 1710872070 demo_calls ∅)
    as (bc & db' & blocks & Hbuild & Hnexts & -> & _).
  - reflexivity.
  - vm_compute. split; discriminate.
  - repeat (apply List.Forall_cons; [vm_compute; split; [split; discriminate | reflexivity]|]).
    apply List.Forall_nil.
  - apply (bool_decide_unpack _). vm_compute. exact I.
  - exists bc, db'. split; assumption.
Defined.

(** ** Layout, round trip, initialization, append, lookups *)


Lemma is_Ok_true {A : Type} (m : outcome A) : is_Ok m = true -> exists a, m = Ok a.
Proof. destruct m as [a| |]; try discriminate. intros _. exists a. reflexivity. Qed.

Lemma is_Some_true {A : Type} (o : option A) :
  match o with Some _ => true | None => false end = true -> is_Some o.
Proof. destruct o as [a|]; [intros _; exists a; reflexivity | discriminate]. Qed.

(** C2. The bytes hashed for a nonce are the previous hash, the data, the
    decimal numeral of the timestamp, the decimal numeral of the nonce and
    the decimal numeral of [targetBits], which is 24, one after the other
    with nothing in between; the target is 1 shifted left by 256 - 24; the
    digest is SHA-256; and [Validate] and the rounds of [Run] compare the
    digest of these bytes, read as a big-endian number, with the target. *)
Theorem mining_input_layout (b : Block) (nonce : Z) :
  prepareData (NewProofOfWork b) nonce
  = PrevBlockHash b ++ Data b
      ++ bytes_of_string (strconv.FormatInt (Timestamp b))
      ++ bytes_of_string (strconv.FormatInt nonce)
      ++ bytes_of_string (strconv.FormatInt targetBits) /\
  decimal_value (strconv.FormatInt (Timestamp b)) = Some (Timestamp b) /\
  decimal_value (strconv.FormatInt nonce) = Some nonce /\
  strconv.FormatInt targetBits = "24"%string /\
  targetBits = 24 /\
  target (NewProofOfWork b) = Z.shiftl 1 (256 - targetBits) /\
  target (NewProofOfWork b) = 2 ^ 232 /\
  @Sum256 sha256_hasher = sha256.Sum256 /\
  hex (sha256.Sum256 (bytes_of_string "abc"))
  = "ba7816bf8f01cfea414140de5dae2223b00361a396177a9cb410ff61f20015ad"%string /\
  (forall H : Hasher,
     digestInt (NewProofOfWork b) nonce
     = be_uint (Sum256 (prepareData (NewProofOfWork b) nonce)) /\
     Validate (NewProofOfWork b)
     = (digestInt (NewProofOfWork b) (Nonce b) <? target (NewProofOfWork b)) /\
     forall continue hash,
       Run_round (NewProofOfWork b) continue nonce hash =
         if nonce <? maxNonce then
           if digestInt (NewProofOfWork b) nonce <? target (NewProofOfWork b)
           then (nonce, Sum256 (prepareData (NewProofOfWork b) nonce))
           else continue (nonce + 1) (Sum256 (prepareData (NewProofOfWork b) nonce))
         else (nonce, hash)).
Proof.
  split; [reflexivity|]. split; [apply FormatInt_decimal|].
  split; [apply FormatInt_decimal|]. split; [reflexivity|]. split; [reflexivity|].
  split; [reflexivity|]. split; [reflexivity|]. split; [reflexivity|].
  split; [vm_compute; reflexivity|].
  intros H. split; [reflexivity|]. split.
  - rewrite Validate_below_target. apply below_target_digestInt.
  - intros continue hash. unfold Run_round.
    destruct (nonce <? maxNonce); [|reflexivity].
    cbv zeta. fold (below_target (NewProofOfWork b) nonce).
    rewrite below_target_digestInt. reflexivity.
Qed.

(** C4. A block of the Go type, its integers on 64 bits, whatever its
    slices, empty ones included: what [Serialize] returns for it,
    [DeseralizeBlock] decodes to a block with the same five fields; and
    [Serialize] does return when the slices have less than [2^32] bytes
    together. *)
Theorem serialization_round_trip (b : Block) :
  well_typed b ->
  (forall encoded, Serialize b = Ok encoded ->
     DeseralizeBlock encoded = Ok b /\
     forall b', DeseralizeBlock encoded = Ok b' ->
       Timestamp b' = Timestamp b /\ Data b' = Data b /\
       PrevBlockHash b' = PrevBlockHash b /\ Hash b' = Hash b /\ Nonce b' = Nonce b) /\
  (Z.of_nat (payload b) < 2 ^ 32 -> exists encoded, Serialize b = Ok encoded).
Proof.
  intros Hb. split.
  - intros encoded Hser.
    pose proof (DeseralizeBlock_Serialize b encoded Hb Hser) as Hdec.
    split; [assumption|]. intros b' Hb'. rewrite Hdec in Hb'. injection Hb' as <-.
    repeat split.
  - intros Hsize. destruct (Serialize_total b Hb Hsize) as (encoded & Hser & _).
    exists encoded. assumption.
Qed.

Lemma serialization_round_trip_witness :
  exists encoded,
    Serialize (mkBlock 1710872070 [] [] (sha256.Sum256 []) (-7)) = Ok encoded /\
    DeseralizeBlock encoded = Ok (mkBlock 1710872070 [] [] (sha256.Sum256 []) (-7)).
Proof.
  destruct (serialization_round_trip (mkBlock 1710872070 [] [] (sha256.Sum256 []) (-7)))
    as [Hround Htotal].
  - vm_compute. repeat split; discriminate.
  - destruct Htotal as (encoded & Hser); [vm_compute; reflexivity|].
    exists encoded. split; [assumption|]. apply Hround. assumption.
Defined.

(** C6. [NewBlockchain] on a database that has the bucket returns the value
    under the key "l" as the tip and leaves the database as it was: no
    block is mined and nothing is written. On a database without the
    bucket it makes the bucket, mines the genesis block and writes its
    record and the tip pointer, and nothing else. *)
Theorem NewBlockchain_idempotent `{Hasher} (now : Z) (db : bolt.DB) :
  (forall bucket, db !! blocksBucket = Some bucket ->
     NewBlockchain now db
     = Ok (mkBlockchain (bolt.Get bucket (bytes_of_string "l")), db)) /\
  (int64 now -> db !! blocksBucket = None ->
     exists encoded,
       Serialize (NewGenesisBlock now) = Ok encoded /\
       NewBlockchain now db
       = Ok (mkBlockchain (Hash (NewGenesisBlock now)),
             <[blocksBucket :=
                 <[bytes_of_string "l" := Hash (NewGenesisBlock now)]>
                   {[Hash (NewGenesisBlock now) := encoded]}]> db)).
Proof.
  split.
  - intros bucket Hbucket. apply NewBlockchain_bucket. assumption.
  - intros Hnow Hnone. apply NewBlockchain_no_bucket; assumption.
Qed.

Lemma NewBlockchain_idempotent_witness :
  NewBlockchain (H := sha256_hasher) 1800000000 demo_db
  = Ok (mkBlockchain (Hash (NewBlock (H := sha256_hasher) 1726103277 "Third Block"
                              (Hash (NewBlock (H := sha256_hasher) 1723916534 "Second Block"
                                 (Hash (NewBlock (H := sha256_hasher) 1719627623 "First Block"
                                    (Hash (NewGenesisBlock (H := sha256_hasher) 1710872070)))))))),
        demo_db) /\
  exists encoded,
    NewBlockchain (H := sha256_hasher) 1710872070 ∅
    = Ok (genesis_bc,
          <[blocksBucket :=
              <[bytes_of_string "l" := tip genesis_bc]> {[tip genesis_bc := encoded]}]> ∅).
Proof.
  destruct (NewBlockchain_idempotent (H := sha256_hasher) 1800000000 demo_db) as [Hsome _].
  destruct (NewBlockchain_idempotent (H := sha256_hasher) 1710872070 ∅) as [_ Hnone].
  split.
  - assert (Hbucket : is_Some (demo_db !! blocksBucket))
      by (apply is_Some_true; vm_compute; reflexivity).
    destruct Hbucket as [bucket Hbucket].
    assert (Hb : bucket = default ∅ (demo_db !! blocksBucket))
      by (rewrite Hbucket; reflexivity).
    assert (Htip : bolt.Get bucket (bytes_of_string "l")
                   = Hash (NewBlock (H := sha256_hasher) 1726103277 "Third Block"
                       (Hash (NewBlock (H := sha256_hasher) 1723916534 "Second Block"
                          (Hash (NewBlock (H := sha256_hasher) 1719627623 "First Block"
                             (Hash (NewGenesisBlock (H := sha256_hasher) 1710872070)))))))).
    { rewrite Hb. vm_compute. reflexivity. }
    rewrite <- Htip. exact (Hsome bucket Hbucket).
  - destruct Hnone as (encoded & _ & Hnew).
    + vm_compute. split; discriminate.
    + reflexivity.
    + exists encoded. exact Hnew.
Defined.



(** C8 does not hold: on the database of four blocks, [Next] at the hash
    of 32 zero bytes, which has no record, ends the process. *)
Lemma Next_unwritten_hash_aborts : ~ not_found_is_returned.
Proof.
  intros Hclaim.
  assert (Hbucket : is_Some (demo_db !! blocksBucket))
    by (apply is_Some_true; vm_compute; reflexivity).
  destruct Hbucket as [bucket Hbucket].
  assert (Hb : bucket = default ∅ (demo_db !! blocksBucket))
    by (rewrite Hbucket; reflexivity).
  assert (Hrec : bucket !! currentHash (mkIterator (repeat x00 32)) = None).
  { cbn [currentHash]. rewrite Hb. vm_compute. reflexivity. }
  pose proof (Hclaim (mkIterator (repeat x00 32)) demo_db bucket Hbucket Hrec) as Hret.
  pose proof (Next_no_record (mkIterator (repeat x00 32)) demo_db bucket Hbucket Hrec)
    as Hnext.
  revert Hret Hnext. generalize (Next (mkIterator (repeat x00 32)) demo_db).
  intros r Hret ->. exact Hret.
Qed.

(** C8, amended. Asked for a block under a hash that has no record, [Next]
    reads no bytes from the bucket, [DeseralizeBlock] fails on them with
    [io.EOF], and [log.Fatal] ends the process: nothing is returned to the
    caller. *)
Theorem Next_not_found_fatal (i : BlockchainIterator) (db : bolt.DB)
    (bucket : gmap bytes bytes) :
  db !! blocksBucket = Some bucket ->
  bucket !! currentHash i = None ->
  bolt.Get bucket (currentHash i) = [] /\
  DeseralizeBlock [] = Fatal io.EOF /\
  Next i db = Fatal io.EOF /\
  ~ returns (Next i db).
Proof.
  intros Hbucket Hrec.
  split; [unfold bolt.Get; rewrite Hrec; reflexivity|].
  split; [reflexivity|].
  rewrite (Next_no_record i db bucket Hbucket Hrec).
  split; [reflexivity|]. intros [].
Qed.

Lemma Next_not_found_fatal_witness :
  Next (mkIterator (repeat x00 32)) genesis_db = Fatal io.EOF.
Proof.
  assert (Hbucket : is_Some (genesis_db !! blocksBucket))
    by (apply is_Some_true; vm_compute; reflexivity).
  destruct Hbucket as [bucket Hbucket].
  assert (Hb : bucket = default ∅ (genesis_db !! blocksBucket))
    by (rewrite Hbucket; reflexivity).
  destruct (Next_not_found_fatal (mkIterator (repeat x00 32)) genesis_db bucket)
    as (_ & _ & Hnext & _).
  - assumption.
  - cbn [currentHash]. rewrite Hb. vm_compute. reflexivity.
  - exact Hnext.
Defined.

(** ** More on mining and on records *)


(** The loop of [Run] reads the block only through [prepareData] and the
    target. *)
Lemma Run_loop_congr `{Hasher} (pow pow' : ProofOfWork) :
  target pow = target pow' ->
  (forall nonce, prepareData pow nonce = prepareData pow' nonce) ->
  forall (n : nat) (k k' : Z -> bytes -> Z * bytes),
    (forall nonce hash, k nonce hash = k' nonce hash) ->
    forall nonce hash, Run_loop pow n k nonce hash = Run_loop pow' n k' nonce hash.
Proof.
  intros Htarget Hdata. induction n as [|n IH]; intros k k' Hk nonce hash.
  - cbn [Run_loop]. unfold Run_round. rewrite Htarget, Hdata, Hk. reflexivity.
  - cbn [Run_loop]. apply IH. intros nonce' hash'. apply IH. exact Hk.
Qed.

Lemma Run_congr `{Hasher} (pow pow' : ProofOfWork) :
  target pow = target pow' ->
  (forall nonce, prepareData pow nonce = prepareData pow' nonce) ->
  Run pow = Run pow'.
Proof.
  intros Htarget Hdata. unfold Run, Run_from.
  apply Run_loop_congr; [assumption | assumption | reflexivity].
Qed.

Lemma bytes_of_string_app (s1 s2 : string) :
  bytes_of_string (s1 ++ s2) = bytes_of_string s1 ++ bytes_of_string s2.
Proof.
  unfold bytes_of_string, list_byte_of_string.
  induction s1 as [|c s1 IH]; [reflexivity|].
  simpl. f_equal. exact IH.
Qed.

Lemma byte_to_Z_0 (c : byte) : byte_to_Z c = 0 <-> c = x00.
Proof.
  split.
  - intros Hc. rewrite <- (byte_of_to_Z c), Hc. reflexivity.
  - intros ->. reflexivity.
Qed.

(** A digest is below [1 << 232] exactly when its first three bytes are
    zero. *)
Lemma be_uint_leading_zeros (h : bytes) :
  length h = 32%nat ->
  be_uint h < 2 ^ 232 <-> take 3 h = [x00; x00; x00].
Proof.
  intros Hlen.
  destruct h as [|c0 [|c1 [|c2 rest]]]; try discriminate.
  cbn [length] in Hlen. assert (Hrest : length rest = 29%nat) by lia.
  cbn [take].
  rewrite !be_uint_cons. cbn [length]. rewrite Hrest.
  pose proof (be_uint_range rest) as Hr. rewrite Hrest in Hr.
  pose proof (byte_to_Z_range c0) as H0.
  pose proof (byte_to_Z_range c1) as H1.
  pose proof (byte_to_Z_range c2) as H2.
  change (Z.of_nat 29) with 29 in *.
  change (Z.of_nat 30) with 30. change (Z.of_nat 31) with 31.
  change (256 ^ 31) with (65536 * 256 ^ 29).
  change (256 ^ 30) with (256 * 256 ^ 29).
  change (2 ^ 232) with (256 ^ 29).
  set (p := 256 ^ 29) in *. assert (Hp : 0 < p) by (subst p; lia). clearbody p.
  split.
  - intros Hlt.
    assert (byte_to_Z c0 = 0) as E0 by nia.
    assert (byte_to_Z c1 = 0) as E1 by nia.
    assert (byte_to_Z c2 = 0) as E2 by nia.
    apply byte_to_Z_0 in E0, E1, E2. subst. reflexivity.
  - intros [= -> -> ->]. change (byte_to_Z x00) with 0. lia.
Qed.

(** X1. [Run] returns a nonce from 0 to [math.MaxInt64] and a hash of 32
    bytes, which is the digest of the last nonce the loop tried: the nonce
    returned, or [math.MaxInt64 - 1] when the loop ran to its end. The zeroed
    array [hash] starts with is never what comes back. *)
Theorem Run_result_shape `{Hasher} (pow : ProofOfWork) :
  0 <= fst (Run pow) <= maxNonce /\
  length (snd (Run pow)) = 32%nat /\
  snd (Run pow)
  = Sum256 (prepareData pow (Z.min (fst (Run pow)) (maxNonce - 1))).
Proof.
  destruct (Run_spec pow) as (n & h & Heq & Hrange & _ & Hhit & Hend).
  rewrite Heq. cbn [fst snd]. split; [exact Hrange|].
  assert (Hh : h = Sum256 (prepareData pow (Z.min n (maxNonce - 1)))).
  { destruct (Z.lt_ge_cases n maxNonce) as [Hlt|Hge].
    - rewrite Z.min_l by lia. apply Hhit. exact Hlt.
    - rewrite Z.min_r by lia. apply Hend. lia. }
  split; [|exact Hh].
  rewrite Hh. apply Sum256_size.
Qed.

(** X2. [Validate] accepts a block exactly when the digest of its mining
    input, at the nonce of the block, starts with three zero bytes (24 zero
    bits); the [Hash] field plays no part in the verdict. *)
Theorem Validate_leading_zero_bytes `{Hasher} (b : Block) :
  (Validate (NewProofOfWork b) = true <->
   take 3 (Sum256 (prepareData (NewProofOfWork b) (Nonce b))) = [x00; x00; x00]) /\
  (forall hash : bytes,
     Validate (NewProofOfWork
                 (mkBlock (Timestamp b) (Data b) (PrevBlockHash b) hash (Nonce b)))
     = Validate (NewProofOfWork b)).
Proof.
  split.
  - rewrite Validate_below_target, below_target_lt.
    change (target (NewProofOfWork b)) with (2 ^ 232).
    apply be_uint_leading_zeros. apply Sum256_size.
  - intros hash. rewrite !Validate_below_target. cbn [Nonce].
    apply below_target_fields; reflexivity.
Qed.

Lemma Validate_leading_zero_bytes_witness :
  take 3 (sha256.Sum256
            (prepareData (NewProofOfWork (with_nonce genesis_candidate 3)) 3))
  = [x00; x00; x00].
Proof.
  apply (proj1 (Validate_leading_zero_bytes (H := sha256_hasher)
                  (with_nonce genesis_candidate 3))).
  vm_compute. reflexivity.
Defined.

(** X3. The mining input does not mark where the previous hash ends and
    the data begins: a block whose data is [s1 ++ s2] on previous hash
    [prev], and a block whose data is [s2] on previous hash [prev ++ s1],
    built at the same clock reading, get the same nonce and the same hash. *)
Theorem mining_ignores_field_boundary `{Hasher} (now : Z) (s1 s2 : string)
    (prev : bytes) :
  Hash (NewBlock now (s1 ++ s2) prev)
  = Hash (NewBlock now s2 (prev ++ bytes_of_string s1)) /\
  Nonce (NewBlock now (s1 ++ s2) prev)
  = Nonce (NewBlock now s2 (prev ++ bytes_of_string s1)).
Proof.
  destruct (NewBlock_fields now (s1 ++ s2) prev) as (_ & _ & _ & Hn & Hh).
  destruct (NewBlock_fields now s2 (prev ++ bytes_of_string s1)) as (_ & _ & _ & Hn' & Hh').
  cbv zeta in Hn, Hh, Hn', Hh'. rewrite Hn, Hh, Hn', Hh'.
  assert (HR : Run (NewProofOfWork (mkBlock now (bytes_of_string (s1 ++ s2)) prev [] 0))
               = Run (NewProofOfWork
                        (mkBlock now (bytes_of_string s2) (prev ++ bytes_of_string s1) [] 0))).
  { apply Run_congr; [reflexivity|].
    intros nonce. unfold prepareData, NewProofOfWork.
    cbn [block PrevBlockHash Data Timestamp bytes_Join].
    rewrite bytes_of_string_app. cbn [app]. rewrite <- !app_assoc. reflexivity. }
  rewrite HR. split; reflexivity.
Qed.

(** [Decode] of what [Encode] wrote, with more bytes after it. *)
Lemma Decode_Encode_app (b : Block) (out extra : bytes) :
  well_typed b -> gob.Encode b = Ok out ->
  gob.Decode (out ++ extra) (mkBlock 0 [] [] [] 0) = Ok b.
Proof.
  intros Hb. unfold gob.Encode.
  destruct (gob.writeMessage (gob.encodeInt (- gob.blockId) ++ gob.wireType_Block))
    as [typ| |] eqn:Htyp; cbn [mbind outcome_bind]; try discriminate.
  destruct (gob.writeMessage (gob.encodeInt gob.blockId ++ _)) as [val| |] eqn:Hval;
    cbn [mbind outcome_bind]; try discriminate.
  intros [= <-].
  apply writeMessage_Ok in Htyp as [Hbig1 ->].
  apply writeMessage_Ok in Hval as [Hbig2 ->].
  set (m1 := gob.encodeInt (- gob.blockId) ++ gob.wireType_Block) in *.
  set (m2 := gob.encodeInt gob.blockId ++ gob.encodeStruct (-1) (gob.fields b)) in *.
  unfold gob.Decode. rewrite <- app_assoc.
  rewrite recvMessage_message by assumption. cbn [mbind outcome_bind].
  subst m1.
  rewrite decodeInt_encodeInt
    by (unfold int64, MinInt64, MaxInt64, gob.blockId; lia).
  cbn [mbind outcome_bind].
  rewrite Z.eqb_refl, bool_decide_eq_true_2 by reflexivity. cbn [andb].
  rewrite recvMessage_message by assumption. cbn [mbind outcome_bind].
  subst m2.
  rewrite decodeInt_encodeInt
    by (unfold int64, MinInt64, MaxInt64, gob.blockId; lia).
  cbn [mbind outcome_bind]. rewrite Z.eqb_refl.
  rewrite length_app in Hbig2.
  rewrite decodeStruct_encodeStruct;
    [|lia|apply fields_ok_Block; assumption|lia|lia].
  cbn [mbind outcome_bind]. rewrite setField_sent. reflexivity.
Qed.

(** An unsigned integer cut short, or followed by less than it counts. *)
Lemma recvMessage_truncated (empty : error) (message : bytes) (n : nat) :
  Z.of_nat (length message) < gob.tooBig ->
  (n < length (gob.encodeUint (Z.of_nat (length message)) ++ message))%nat ->
  exists e, gob.recvMessage empty
              (take n (gob.encodeUint (Z.of_nat (length message)) ++ message)) = Err e.
Proof.
  intros Hbig Hn. unfold gob.tooBig in Hbig.
  set (x := Z.of_nat (length message)) in *.
  assert (Hx : 0 <= x) by (subst x; lia).
  destruct n as [|n].
  { rewrite take_0. exists empty. reflexivity. }
  unfold gob.recvMessage, gob.encodeUint in *.
  destruct (x <=? 0x7F) eqn:Hsmall.
  - apply Z.leb_le in Hsmall. cbn [app take gob.decodeUint length] in *.
    rewrite byte_to_of_Z, Z.mod_small by lia.
    apply Z.leb_le in Hsmall. rewrite Hsmall. cbn [mbind outcome_bind].
    apply Z.leb_le in Hsmall.
    destruct (x >=? gob.tooBig) eqn:E1; [unfold gob.tooBig in E1; zbool; lia|].
    rewrite length_take.
    destruct (Z.of_nat (n `min` length message) <? x) eqn:E2;
      [eexists; reflexivity|].
    zbool. subst x. lia.
  - apply Z.leb_gt in Hsmall.
    destruct (byteLen_spec x) as [Hk Hlt]; [lia|].
    set (k := gob.byteLen x) in *. clearbody k.
    cbn [app take gob.decodeUint length] in *. rewrite byte_to_of_Z.
    replace (- k mod 256) with (256 - k)
      by (apply Z.mod_unique_pos with (q := -1); lia).
    destruct (256 - k <=? 127) eqn:E1; [zbool; lia|].
    replace (256 - (256 - k)) with k by lia.
    destruct (k >? gob.uint64Size) eqn:E2; [unfold gob.uint64Size in E2; zbool; lia|].
    rewrite length_app, length_be_bytes in Hn.
    destruct (Z.of_nat (length (take n (be_bytes (Z.to_nat k) x ++ message))) <? k) eqn:E3;
      [eexists; reflexivity|].
    rewrite length_take, length_app, length_be_bytes in E3. zbool.
    cbn [mbind outcome_bind].
    assert (Hnk : (Z.to_nat k <= n)%nat) by lia.
    rewrite take_app_ge by (rewrite length_be_bytes; exact Hnk).
    rewrite length_be_bytes.
    rewrite take_app_length', drop_app_length' by (symmetry; apply length_be_bytes).
    rewrite be_uint_be_bytes by lia.
    rewrite Z2Nat.id, Z.mod_small by lia.
    destruct (x >=? gob.tooBig) eqn:E4; [unfold gob.tooBig in E4; zbool; lia|].
    rewrite length_take.
    destruct (Z.of_nat ((n - Z.to_nat k) `min` length message) <? x) eqn:E5;
      [eexists; reflexivity|].
    zbool. subst x. lia.
Qed.

(** X4. On blocks with 64-bit integer fields [Serialize] is injective: two
    blocks with the same record are the same block, field for field. *)
Theorem Serialize_injective (b b' : Block) (encoded : bytes) :
  well_typed b -> well_typed b' ->
  Serialize b = Ok encoded -> Serialize b' = Ok encoded -> b = b'.
Proof.
  intros Hb Hb' Hser Hser'.
  pose proof (DeseralizeBlock_Serialize b encoded Hb Hser) as Hd.
  pose proof (DeseralizeBlock_Serialize b' encoded Hb' Hser') as Hd'.
  rewrite Hd in Hd'. injection Hd' as ->. reflexivity.
Qed.

Lemma Serialize_injective_witness :
  sample_block
  = match DeseralizeBlock sample_record with
    | Ok b => b
    | _ => mkBlock 0 [] [] [] 0
    end.
Proof.
  apply (Serialize_injective sample_block _ sample_record).
  - vm_compute. split; split; discriminate.
  - vm_compute. split; split; discriminate.
  - vm_compute. reflexivity.
  - vm_compute. reflexivity.
Defined.

(** X5. A record cut short is never read as a block: on every proper
    prefix of what [Serialize] returned, [DeseralizeBlock] reaches
    [log.Fatal]. *)
Theorem DeseralizeBlock_truncated (b : Block) (encoded : bytes) (n : nat) :
  Serialize b = Ok encoded -> (n < length encoded)%nat ->
  exists e, DeseralizeBlock (take n encoded) = Fatal e.
Proof.
  intros Hser Hn. apply Serialize_Ok in Hser. revert Hser. unfold gob.Encode.
  destruct (gob.writeMessage (gob.encodeInt (- gob.blockId) ++ gob.wireType_Block))
    as [typ| |] eqn:Htyp; cbn [mbind outcome_bind]; try discriminate.
  destruct (gob.writeMessage (gob.encodeInt gob.blockId ++ _)) as [val| |] eqn:Hval;
    cbn [mbind outcome_bind]; try discriminate.
  intros [= <-].
  apply writeMessage_Ok in Htyp as [Hbig1 ->].
  apply writeMessage_Ok in Hval as [Hbig2 ->].
  set (m1 := gob.encodeInt (- gob.blockId) ++ gob.wireType_Block) in *.
  set (m2 := gob.encodeInt gob.blockId ++ gob.encodeStruct (-1) (gob.fields b)) in *.
  set (f1 := gob.encodeUint (Z.of_nat (length m1)) ++ m1) in *.
  set (f2 := gob.encodeUint (Z.of_nat (length m2)) ++ m2) in *.
  rewrite length_app in Hn. unfold DeseralizeBlock, gob.Decode.
  destruct (Nat.lt_ge_cases n (length f1)) as [Hlt|Hge].
  - rewrite take_app_le by lia.
    destruct (recvMessage_truncated io.EOF m1 n Hbig1 Hlt) as [e He].
    fold f1 in He. rewrite He. exists e. reflexivity.
  - rewrite take_app_ge by lia.
    subst f1. rewrite recvMessage_message by assumption. cbn [mbind outcome_bind].
    subst m1.
    rewrite decodeInt_encodeInt
      by (unfold int64, MinInt64, MaxInt64, gob.blockId; lia).
    cbn [mbind outcome_bind].
    rewrite Z.eqb_refl, bool_decide_eq_true_2 by reflexivity. cbn [andb].
    destruct (recvMessage_truncated io.ErrUnexpectedEOF m2
                (n - length (gob.encodeUint
                               (Z.of_nat (length (gob.encodeInt (- gob.blockId)
                                                    ++ gob.wireType_Block)))
                             ++ gob.encodeInt (- gob.blockId) ++ gob.wireType_Block))
                Hbig2) as [e He].
    + fold f2. lia.
    + fold f2 in He. rewrite He. exists e. reflexivity.
Qed.

Lemma DeseralizeBlock_truncated_witness :
  exists e, DeseralizeBlock (take 100 sample_record) = Fatal e.
Proof.
  apply (DeseralizeBlock_truncated sample_block sample_record 100).
  - vm_compute. reflexivity.
  - vm_compute. lia.
Defined.

(** X6. [DeseralizeBlock] reads one record and leaves what follows it
    unread: with any bytes appended to what [Serialize] returned, it yields
    the same block. *)
Theorem DeseralizeBlock_trailing_bytes (b : Block) (encoded extra : bytes) :
  well_typed b -> Serialize b = Ok encoded ->
  DeseralizeBlock (encoded ++ extra) = Ok b.
Proof.
  intros Hb Hser. apply Serialize_Ok in Hser.
  unfold DeseralizeBlock. rewrite (Decode_Encode_app b encoded extra Hb Hser).
  reflexivity.
Qed.

Lemma DeseralizeBlock_trailing_bytes_witness :
  DeseralizeBlock (sample_record ++ [x01; x02; x03]) = Ok sample_block.
Proof.
  apply (DeseralizeBlock_trailing_bytes sample_block sample_record [x01; x02; x03]).
  - vm_compute. split; split; discriminate.
  - vm_compute. reflexivity.
Defined.

(** ** More on the chain in the database *)


Section Walking.
Context `{Hasher}.

(** The database and the handle a chain was built into, and the walk down
    all of its blocks. *)
Lemma build_walk (now0 : Z) (calls : list (Z * string)) (db : bolt.DB) :
  db !! blocksBucket = None -> int64 now0 -> Forall call_ok calls ->
  NoDup (Hash <$> chain now0 calls) ->
  exists bc db' bucket,
    build now0 calls db = Ok (bc, db') /\
    db' !! blocksBucket = Some bucket /\
    tip bc = tip_of (chain now0 calls) /\
    Forall well_typed (chain now0 calls) /\
    (forall b, b ∈ chain now0 calls ->
       exists encoded, Serialize b = Ok encoded /\ bucket !! Hash b = Some encoded) /\
    Nexts (S (length calls)) (Iterator bc) db' = Ok (chain now0 calls).
Proof.
  intros Hnone Hnow Hcalls Hnd.
  destruct (build_returns now0 calls db Hnone Hnow Hcalls) as (bc & db' & Hbuild).
  destruct (stored_build now0 calls db db' bc Hnone Hnow Hbuild Hnd)
    as [(bucket & Hbucket & Htip & Hrecs) Htipbc].
  assert (Hwt : Forall well_typed (chain now0 calls)).
  { apply well_typed_chain; [assumption|].
    eapply Forall_impl; [exact Hcalls|]. intros call [Hc _]. exact Hc. }
  exists bc, db', bucket. repeat (split; [assumption|]).
  unfold Iterator. rewrite Htipbc, <- (length_chain now0 calls).
  apply (Nexts_stored db' bucket); try assumption. apply linked_chain.
Qed.

Lemma AddBlock_synced (now : Z) (data : string) (bc bc' : Blockchain)
    (db db' : bolt.DB) :
  AddBlock now data bc db = Ok (bc', db') -> synced bc' db'.
Proof.
  intros Hadd.
  destruct (AddBlock_Ok now data bc bc' db db' Hadd)
    as (bucket & encoded & _ & _ & _ & -> & ->).
  eexists. split; [apply lookup_insert_eq|]. cbn [tip]. apply lookup_insert_eq.
Qed.

Lemma AddBlocks_synced (calls : list (Z * string)) :
  forall bc db bc' db',
    synced bc db -> AddBlocks calls bc db = Ok (bc', db') -> synced bc' db'.
Proof.
  induction calls as [|[now data] calls IH]; intros bc db bc' db' Hs.
  - cbn [AddBlocks]. intros [= <- <-]. exact Hs.
  - cbn [AddBlocks].
    destruct (AddBlock now data bc db) as [[bc1 db1]| |] eqn:Hadd;
      cbn [mbind outcome_bind]; try discriminate.
    apply IH. exact (AddBlock_synced now data bc bc1 db db1 Hadd).
Qed.

Lemma build_synced (now0 : Z) (calls : list (Z * string)) (db db' : bolt.DB)
    (bc : Blockchain) :
  db !! blocksBucket = None -> int64 now0 ->
  build now0 calls db = Ok (bc, db') -> synced bc db'.
Proof.
  intros Hnone Hnow. unfold build.
  destruct (NewBlockchain_no_bucket now0 db Hnow Hnone) as (encoded & _ & ->).
  cbn [mbind outcome_bind]. apply AddBlocks_synced.
  eexists. split; [apply lookup_insert_eq|]. cbn [tip]. apply lookup_insert_eq.
Qed.

Lemma AddBlock_no_empty_key (now : Z) (data : string) (bc bc' : Blockchain)
    (db db' : bolt.DB) :
  no_empty_key db -> AddBlock now data bc db = Ok (bc', db') -> no_empty_key db'.
Proof.
  intros Hno Hadd.
  destruct (AddBlock_Ok now data bc bc' db db' Hadd)
    as (bucket & encoded & Hbucket & _ & _ & _ & ->).
  pose proof (NewBlock_Hash_length now data (bolt.Get bucket (bytes_of_string "l")))
    as Hlen.
  revert Hlen. generalize (NewBlock now data (bolt.Get bucket (bytes_of_string "l"))).
  intros nb Hlen bucket'. rewrite lookup_insert_eq. intros [= <-].
  rewrite lookup_insert_ne by discriminate.
  rewrite lookup_insert_ne by (intros Heq; rewrite Heq in Hlen; discriminate).
  apply Hno. exact Hbucket.
Qed.

Lemma AddBlocks_no_empty_key (calls : list (Z * string)) :
  forall bc db bc' db',
    no_empty_key db -> AddBlocks calls bc db = Ok (bc', db') -> no_empty_key db'.
Proof.
  induction calls as [|[now data] calls IH]; intros bc db bc' db' Hno.
  - cbn [AddBlocks]. intros [= <- <-]. exact Hno.
  - cbn [AddBlocks].
    destruct (AddBlock now data bc db) as [[bc1 db1]| |] eqn:Hadd;
      cbn [mbind outcome_bind]; try discriminate.
    apply IH. exact (AddBlock_no_empty_key now data bc bc1 db db1 Hno Hadd).
Qed.

Lemma build_no_empty_key (now0 : Z) (calls : list (Z * string)) (db db' : bolt.DB)
    (bc : Blockchain) :
  db !! blocksBucket = None -> int64 now0 ->
  build now0 calls db = Ok (bc, db') -> no_empty_key db'.
Proof.
  intros Hnone Hnow. unfold build.
  destruct (NewBlockchain_no_bucket now0 db Hnow Hnone) as (encoded & _ & ->).
  cbn [mbind outcome_bind]. apply AddBlocks_no_empty_key.
  pose proof (NewGenesisBlock_Hash_length now0) as Hlen.
  revert Hlen. generalize (NewGenesisBlock now0).
  intros g Hlen bucket'. rewrite lookup_insert_eq. intros [= <-].
  rewrite lookup_insert_ne by discriminate.
  apply lookup_singleton_ne. intros Heq. rewrite Heq in Hlen. discriminate.
Qed.

(** Every block of a chain came out of [NewBlock]. *)
Lemma chain_mined (now0 : Z) (calls : list (Z * string)) :
  Forall (fun b => exists now data prev, b = NewBlock now data prev) (chain now0 calls).
Proof.
  unfold chain.
  assert (Hgen : forall cs bs,
            Forall (fun b => exists now data prev, b = NewBlock now data prev) bs ->
            Forall (fun b => exists now data prev, b = NewBlock now data prev)
              (foldl extend bs cs)).
  { induction cs as [|c cs IH]; intros bs Hbs; [assumption|].
    cbn [foldl]. apply IH. unfold extend. apply List.Forall_cons; [|assumption].
    eexists _, _, _. reflexivity. }
  apply Hgen. apply List.Forall_cons; [|apply List.Forall_nil].
  exists now0, "Genesis Block"%string, []. reflexivity.
Qed.

Lemma Data_foldl_extend (calls : list (Z * string)) :
  forall bs,
    Data <$> foldl extend bs calls
    = rev (bytes_of_string <$> (snd <$> calls)) ++ (Data <$> bs).
Proof.
  induction calls as [|[now data] calls IH]; intros bs; [reflexivity|].
  cbn [foldl]. rewrite IH. unfold extend. cbn [fst snd fmap list_fmap rev].
  destruct (NewBlock_fields now data (tip_of bs)) as (_ & Hd & _).
  cbv zeta in Hd. rewrite Hd. rewrite <- app_assoc. reflexivity.
Qed.

Lemma Timestamp_foldl_extend (calls : list (Z * string)) :
  forall bs,
    Timestamp <$> foldl extend bs calls
    = rev (fst <$> calls) ++ (Timestamp <$> bs).
Proof.
  induction calls as [|[now data] calls IH]; intros bs; [reflexivity|].
  cbn [foldl]. rewrite IH. unfold extend. cbn [fst snd fmap list_fmap rev].
  destruct (NewBlock_fields now data (tip_of bs)) as (Ht & _).
  cbv zeta in Ht. rewrite Ht. rewrite <- app_assoc. reflexivity.
Qed.

End Walking.

(** A walk of one more call than the blocks [bs] recorded in a bucket
    without the empty key. *)
Lemma Nexts_past (db : bolt.DB) (bucket : gmap bytes bytes) (bs : list Block) :
  db !! blocksBucket = Some bucket -> bucket !! [] = None ->
  linked bs -> Forall well_typed bs ->
  (forall b, b ∈ bs ->
     exists encoded, Serialize b = Ok encoded /\ bucket !! Hash b = Some encoded) ->
  Nexts (S (length bs)) (mkIterator (tip_of bs)) db = Fatal io.EOF.
Proof.
  intros Hbucket Hempty. induction bs as [|b rest IH]; intros Hl Hwt Hrecs.
  - cbn [length Nexts tip_of].
    rewrite (Next_no_record (mkIterator []) db bucket Hbucket Hempty). reflexivity.
  - inversion Hwt as [|? ? Hb Hrest]; subst.
    destruct (Hrecs b (list_elem_of_here b rest)) as (encoded & Hser & Hrec).
    cbn [length tip_of]. change (Nexts (S (S (length rest))) (mkIterator (Hash b)) db)
      with ('(block, i) ← Next (mkIterator (Hash b)) db;
            blocks ← Nexts (S (length rest)) i db;
            Ok (block :: blocks)).
    rewrite (Next_record (mkIterator (Hash b)) db bucket encoded b Hbucket Hrec
               (DeseralizeBlock_Serialize b encoded Hb Hser)).
    cbn [mbind outcome_bind].
    assert (Hprev : PrevBlockHash b = tip_of rest /\ linked rest).
    { destruct rest as [|p rest']; cbn [linked tip_of] in *; [split; [assumption|exact I]|].
      exact Hl. }
    destruct Hprev as [-> Hlrest].
    rewrite IH; [reflexivity|assumption|assumption|].
    intros b' Hb'. apply Hrecs. apply list_elem_of_further. assumption.
Qed.

Lemma Encode_errors (b : Block) :
  (forall e, gob.Encode b = Err e -> e = gob.errTooBig) /\
  (forall e, gob.Encode b <> Fatal e).
Proof.
  unfold gob.Encode, gob.writeMessage.
  destruct (_ >=? _); cbn [mbind outcome_bind].
  - split; [intros e [= <-]; reflexivity | discriminate].
  - destruct (_ >=? _); cbn [mbind outcome_bind].
    + split; [intros e [= <-]; reflexivity | discriminate].
    + split; discriminate.
Qed.

Lemma Serialize_errors (b : Block) :
  (forall e, Serialize b <> Err e) /\
  (forall e, Serialize b = Fatal e -> e = gob.errTooBig).
Proof.
  destruct (Encode_errors b) as [Herr Hfatal]. unfold Serialize, fatal.
  destruct (gob.Encode b) as [out|e'|e'].
  - split; discriminate.
  - split; [discriminate|]. intros e [= <-]. apply Herr. reflexivity.
  - exfalso. exact (Hfatal e' eq_refl).
Qed.

(** X7. Without the bucket in the database, [AddBlock] and [Next] end the
    process through [log.Fatal], each with the message of its own read
    transaction. The message of the second check of [AddBlock], in its write
    transaction, is the outcome on no database at all. *)
Theorem missing_bucket_fatal `{Hasher} (db : bolt.DB) :
  (db !! blocksBucket = None ->
   (forall now data bc,
      AddBlock now data bc db
      = Fatal "error getting last block, could not find blocks bucket"%string) /\
   (forall i,
      Next i db = Fatal "error fetching block, blocks bucket does not exist"%string)) /\
  (forall now data bc,
     AddBlock now data bc db
     <> Fatal "error adding block, could not find blocks bucket"%string).
Proof.
  split.
  - intros Hnone. split.
    + intros now data bc. apply AddBlock_no_bucket. exact Hnone.
    + intros i. apply Next_no_bucket. exact Hnone.
  - intros now data bc. destruct (db !! blocksBucket) as [bucket|] eqn:Hbucket.
    + rewrite (AddBlock_bucket now data bc db bucket Hbucket). cbv zeta.
      generalize (NewBlock now data (bolt.Get bucket (bytes_of_string "l"))).
      intros nb. destruct (Serialize_errors nb) as [Herr Hfatal].
      destruct (Serialize nb) as [encoded|e|e].
      * destruct (_ >? _); discriminate.
      * exfalso. exact (Herr e eq_refl).
      * rewrite (Hfatal e eq_refl). discriminate.
    + rewrite (AddBlock_no_bucket now data bc db Hbucket). discriminate.
Qed.

Lemma missing_bucket_fatal_witness :
  AddBlock (H := sha256_hasher) 1719627623 "First Block" (mkBlockchain []) ∅
  = Fatal "error getting last block, could not find blocks bucket"%string /\
  Next (mkIterator []) ∅
  = Fatal "error fetching block, blocks bucket does not exist"%string.
Proof.
  destruct (missing_bucket_fatal (H := sha256_hasher) ∅) as [Hnone _].
  destruct Hnone as [Hadd Hnext].
  - reflexivity.
  - split; [apply Hadd | apply Hnext].
Defined.

(** X8. The walk has no end of its own: after [NewBlockchain] on a new
    database and N calls of [AddBlock], the call of [Next] that follows the
    N+1 that returned the blocks looks up the empty previous hash of the
    genesis block, finds no bytes, and ends the process with [io.EOF]. *)
Theorem Next_past_genesis_fatal `{Hasher} (now0 : Z) (calls : list (Z * string))
    (db : bolt.DB) :
  db !! blocksBucket = None -> int64 now0 -> Forall call_ok calls ->
  NoDup (Hash <$> chain now0 calls) ->
  exists bc db',
    build now0 calls db = Ok (bc, db') /\
    Nexts (S (length calls)) (Iterator bc) db' = Ok (chain now0 calls) /\
    Nexts (S (S (length calls))) (Iterator bc) db' = Fatal io.EOF.
Proof.
  intros Hnone Hnow Hcalls Hnd.
  destruct (build_walk now0 calls db Hnone Hnow Hcalls Hnd)
    as (bc & db' & bucket & Hbuild & Hbucket & Htip & Hwt & Hrecs & Hwalk).
  exists bc, db'. split; [assumption|]. split; [assumption|].
  unfold Iterator. rewrite Htip, <- (length_chain now0 calls).
  apply (Nexts_past db' bucket); try assumption.
  - exact (build_no_empty_key now0 calls db db' bc Hnone Hnow Hbuild bucket Hbucket).
  - apply linked_chain.
Qed.

Lemma Next_past_genesis_fatal_witness :
  exists bc db',
    build (H := sha256_hasher) 1710872070 demo_calls ∅ = Ok (bc, db') /\
    Nexts 5 (Iterator bc) db' = Fatal io.EOF.
Proof.
  destruct (Next_past_genesis_fatal (H := sha256_hasher) 1710872070 demo_calls ∅)
    as (bc & db' & Hbuild & _ & Hpast).
  - reflexivity.
  - vm_compute. split; discriminate.
  - repeat (apply List.Forall_cons; [vm_compute; split; [split; discriminate | reflexivity]|]).
    apply List.Forall_nil.
  - apply (bool_decide_unpack _). vm_compute. exact I.
  - exists bc, db'. split; assumption.
Defined.

(** X9. What was built is found again: [NewBlockchain] on the database
    that [NewBlockchain] and N calls of [AddBlock] left returns the same
    handle, the tip at the newest block, and writes nothing, whatever the
    clock reads. *)
Theorem reopen_same_chain `{Hasher} (now0 : Z) (calls : list (Z * string))
    (db db' : bolt.DB) (bc : Blockchain) :
  db !! blocksBucket = None -> int64 now0 ->
  build now0 calls db = Ok (bc, db') ->
  forall now, NewBlockchain now db' = Ok (bc, db').
Proof.
  intros Hnone Hnow Hbuild now.
  destruct (build_synced now0 calls db db' bc Hnone Hnow Hbuild)
    as (bucket & Hbucket & Htip).
  rewrite (NewBlockchain_bucket now db' bucket Hbucket).
  rewrite (tip_Get bucket (tip bc) Htip). destruct bc. reflexivity.
Qed.

Lemma reopen_same_chain_witness :
  exists bc db',
    build (H := sha256_hasher) 1710872070 demo_calls ∅ = Ok (bc, db') /\
    NewBlockchain (H := sha256_hasher) 1800000000 db' = Ok (bc, db').
Proof.
  destruct (build_returns (H := sha256_hasher) 1710872070 demo_calls ∅)
    as (bc & db' & Hbuild).
  - reflexivity.
  - vm_compute. split; discriminate.
  - repeat (apply List.Forall_cons; [vm_compute; split; [split; discriminate | reflexivity]|]).
    apply List.Forall_nil.
  - exists bc, db'. split; [exact Hbuild|].
    apply (reopen_same_chain (H := sha256_hasher) 1710872070 demo_calls ∅ db' bc).
    + reflexivity.
    + vm_compute. split; discriminate.
    + exact Hbuild.
Defined.

(** X10. Every block the walk returns passes [Validate], when the search
    of each block ended at a nonce below [math.MaxInt64]. *)
Theorem stored_chain_validates `{Hasher} (now0 : Z) (calls : list (Z * string))
    (db : bolt.DB) :
  db !! blocksBucket = None -> int64 now0 -> Forall call_ok calls ->
  NoDup (Hash <$> chain now0 calls) ->
  Forall (fun b => Nonce b < maxNonce) (chain now0 calls) ->
  exists bc db' blocks,
    build now0 calls db = Ok (bc, db') /\
    Nexts (S (length calls)) (Iterator bc) db' = Ok blocks /\
    Forall (fun b => Validate (NewProofOfWork b) = true) blocks.
Proof.
  intros Hnone Hnow Hcalls Hnd Hfound.
  destruct (build_walk now0 calls db Hnone Hnow Hcalls Hnd)
    as (bc & db' & bucket & Hbuild & _ & _ & _ & _ & Hwalk).
  exists bc, db', (chain now0 calls). split; [assumption|]. split; [assumption|].
  pose proof (chain_mined now0 calls) as Hmined.
  rewrite Forall_forall in Hfound, Hmined. rewrite Forall_forall.
  intros b Hb. destruct (Hmined b Hb) as (now & data & prev & ->).
  rewrite Validate_below_target.
  apply (NewBlock_found now data prev). apply Hfound. exact Hb.
Qed.

Lemma stored_chain_validates_witness :
  exists bc db' blocks,
    build (H := sha256_hasher) 1710872070 demo_calls ∅ = Ok (bc, db') /\
    Nexts 4 (Iterator bc) db' = Ok blocks /\
    Forall (fun b => Validate (H := sha256_hasher) (NewProofOfWork b) = true) blocks.
Proof.
  apply (stored_chain_validates (H := sha256_hasher) 1710872070 demo_calls ∅).
  - reflexivity.
  - vm_compute. split; discriminate.
  - repeat (apply List.Forall_cons; [vm_compute; split; [split; discriminate | reflexivity]|]).
    apply List.Forall_nil.
  - apply (bool_decide_unpack _). vm_compute. exact I.
  - apply (bool_decide_unpack _). vm_compute. exact I.
Defined.

(** X11. The walk returns the blocks newest first with what the calls
    gave them: the data strings in the reverse of the order of the calls,
    ending with that of the genesis block, and the clock readings likewise. *)
Theorem walk_newest_first `{Hasher} (now0 : Z) (calls : list (Z * string))
    (db : bolt.DB) :
  db !! blocksBucket = None -> int64 now0 -> Forall call_ok calls ->
  NoDup (Hash <$> chain now0 calls) ->
  exists bc db' blocks,
    build now0 calls db = Ok (bc, db') /\
    Nexts (S (length calls)) (Iterator bc) db' = Ok blocks /\
    Data <$> blocks
    = rev (bytes_of_string <$> ("Genesis Block"%string :: (snd <$> calls))) /\
    Timestamp <$> blocks = rev (now0 :: (fst <$> calls)).
Proof.
  intros Hnone Hnow Hcalls Hnd.
  destruct (build_walk now0 calls db Hnone Hnow Hcalls Hnd)
    as (bc & db' & bucket & Hbuild & _ & _ & _ & _ & Hwalk).
  exists bc, db', (chain now0 calls). split; [assumption|]. split; [assumption|].
  unfold chain. rewrite Data_foldl_extend, Timestamp_foldl_extend.
  destruct (NewBlock_fields now0 "Genesis Block" []) as (Ht & Hd & _).
  cbv zeta in Ht, Hd. unfold NewGenesisBlock.
  cbn [fmap list_fmap rev]. rewrite Ht, Hd. split; reflexivity.
Qed.

Lemma walk_newest_first_witness :
  exists bc db' blocks,
    build (H := sha256_hasher) 1710872070 demo_calls ∅ = Ok (bc, db') /\
    Nexts 4 (Iterator bc) db' = Ok blocks /\
    Data <$> blocks
    = bytes_of_string <$> [ "Third Block"; "Second Block"; "First Block";
                            "Genesis Block" ]%string.
Proof.
  destruct (walk_newest_first (H := sha256_hasher) 1710872070 demo_calls ∅)
    as (bc & db' & blocks & Hbuild & Hwalk & Hdata & _).
  - reflexivity.
  - vm_compute. split; discriminate.
  - repeat (apply List.Forall_cons; [vm_compute; split; [split; discriminate | reflexivity]|]).
    apply List.Forall_nil.
  - apply (bool_decide_unpack _). vm_compute. exact I.
  - exists bc, db', blocks. repeat (split; [assumption|]). exact Hdata.
Defined.

(** ** The chains in memory *)


Lemma index_last {A : Type} (s : list A) (x : A) :
  index (s ++ [x]) (Z.of_nat (length (s ++ [x])) - 1) = Ok x.
Proof.
  unfold index. rewrite length_app. cbn [length].
  destruct (_ <? 0) eqn:E1; [zbool; lia|].
  destruct (_ <=? _) eqn:E2; [zbool; lia|]. cbn [orb].
  replace (Z.to_nat (Z.of_nat (length s + 1) - 1)) with (length s + 0)%nat by lia.
  rewrite lookup_app_r by lia.
  replace (length s + 0 - length s)%nat with 0%nat by lia. reflexivity.
Qed.

Lemma snoc_cases {A : Type} (s : list A) :
  s = [] \/ exists rest x, s = rest ++ [x].
Proof.
  induction s as [|x rest _] using rev_ind; [left; reflexivity|].
  right. exists rest, x. reflexivity.
Qed.

Lemma chained_one {B : Type} (prev hash : B -> bytes) (g : B) :
  prev g = [] -> chained prev hash [g].
Proof.
  intros Hg. split.
  - intros b [= <-]. exact Hg.
  - intros i b b' _ Hb'. destruct i; discriminate.
Qed.

Lemma chained_snoc {B : Type} (prev hash : B -> bytes) (rest : list B) (p nb : B) :
  chained prev hash (rest ++ [p]) -> prev nb = hash p ->
  chained prev hash ((rest ++ [p]) ++ [nb]).
Proof.
  intros [Hfirst Hnext] Hnb. split.
  - intros b Hb. apply Hfirst. rewrite lookup_app_l in Hb; [exact Hb|].
    rewrite length_app. cbn [length]. lia.
  - intros i b b' Hb Hb'.
    destruct (Nat.lt_ge_cases (S i) (length (rest ++ [p]))) as [Hlt|Hge].
    + rewrite lookup_app_l in Hb by lia. rewrite lookup_app_l in Hb' by lia.
      exact (Hnext i b b' Hb Hb').
    + pose proof (lookup_lt_Some _ _ _ Hb') as Hi. rewrite !length_app in Hi.
      rewrite !length_app in Hge. cbn [length] in Hi, Hge.
      assert (Hieq : i = length rest) by lia. subst i.
      rewrite lookup_app_l in Hb by (rewrite length_app; cbn [length]; lia).
      rewrite lookup_app_r in Hb by lia.
      replace (length rest - length rest)%nat with 0%nat in Hb by lia.
      injection Hb as <-.
      rewrite lookup_app_r in Hb' by (rewrite length_app; cbn [length]; lia).
      rewrite length_app in Hb'. cbn [length] in Hb'.
      replace (S (length rest) - (length rest + 1))%nat with 0%nat in Hb' by lia.
      injection Hb' as <-. exact Hnb.
Qed.

Section Memory.
Context `{Hasher}.

Lemma NewGenesisBlock_fields (now : Z) :
  Timestamp (NewGenesisBlock now) = now /\
  Data (NewGenesisBlock now) = bytes_of_string "Genesis Block" /\
  PrevBlockHash (NewGenesisBlock now) = [].
Proof.
  unfold NewGenesisBlock.
  destruct (NewBlock_fields now "Genesis Block" []) as (Ht & Hd & Hp & _).
  cbv zeta in Ht, Hd, Hp. split; [exact Ht|]. split; [exact Hd | exact Hp].
Qed.

Lemma memory_AddBlock_snoc (now : Z) (data : string) (rest : list Block) (p : Block) :
  memory.AddBlock now data (memory.mkBlockchain (rest ++ [p]))
  = Ok (memory.mkBlockchain ((rest ++ [p]) ++ [NewBlock now data (Hash p)])).
Proof.
  unfold memory.AddBlock. cbn [memory.Blocks]. rewrite index_last. reflexivity.
Qed.

(** The chain in memory holds, oldest first, the blocks of [chain]. *)
Lemma memory_AddBlocks_chain (calls : list (Z * string)) :
  forall bs, bs <> [] ->
    memory.AddBlocks calls (memory.mkBlockchain (rev bs))
    = Ok (memory.mkBlockchain (rev (foldl extend bs calls))).
Proof.
  induction calls as [|[now data] calls IH]; intros bs Hbs; [reflexivity|].
  destruct bs as [|b rest]; [congruence|].
  cbn [memory.AddBlocks foldl rev]. rewrite memory_AddBlock_snoc.
  cbn [mbind outcome_bind].
  change ((rev rest ++ [b]) ++ [NewBlock now data (Hash b)])
    with (rev (extend (b :: rest) (now, data))).
  apply IH. discriminate.
Qed.

Lemma memory_AddBlocks_spec (calls : list (Z * string)) :
  forall rest p,
    chained PrevBlockHash Hash (rest ++ [p]) ->
    exists newer,
      memory.AddBlocks calls (memory.mkBlockchain (rest ++ [p]))
      = Ok (memory.mkBlockchain ((rest ++ [p]) ++ newer)) /\
      chained PrevBlockHash Hash ((rest ++ [p]) ++ newer) /\
      Data <$> newer = bytes_of_string <$> (snd <$> calls) /\
      Timestamp <$> newer = fst <$> calls.
Proof.
  induction calls as [|[now data] calls IH]; intros rest p Hch.
  - exists []. rewrite app_nil_r. repeat split; try reflexivity; apply Hch.
  - cbn [memory.AddBlocks]. rewrite memory_AddBlock_snoc. cbn [mbind outcome_bind].
    destruct (NewBlock_fields now data (Hash p)) as (Ht & Hd & Hp & _).
    cbv zeta in Ht, Hd, Hp. revert Ht Hd Hp.
    generalize (NewBlock now data (Hash p)). intros nb Ht Hd Hp.
    destruct (IH (rest ++ [p]) nb (chained_snoc _ _ rest p nb Hch Hp))
      as (newer & Hadd & Hch' & Hdata & Hts).
    exists (nb :: newer). rewrite Hadd.
    replace ((rest ++ [p]) ++ nb :: newer) with (((rest ++ [p]) ++ [nb]) ++ newer)
      by (rewrite <- (app_assoc _ [nb] newer); reflexivity).
    split; [reflexivity|]. split; [exact Hch'|].
    cbn [fmap list_fmap fst snd]. rewrite Hd, Ht.
    split; f_equal; assumption.
Qed.

End Memory.

Section SetHash.
Context `{Hasher}.

Lemma SetHash_fields (b : sethash.Block) :
  sethash.Timestamp (sethash.SetHash b) = sethash.Timestamp b /\
  sethash.Data (sethash.SetHash b) = sethash.Data b /\
  sethash.PrevBlockHash (sethash.SetHash b) = sethash.PrevBlockHash b /\
  sethash.Hash (sethash.SetHash b) = Sum256 (sethash.headers b).
Proof.
  unfold sethash.SetHash, sethash.headers. cbn. repeat split; reflexivity.
Qed.

(** A block that carries the digest of its own headers. *)
Lemma sethash_NewBlock_fields (now : Z) (data : string) (prev : bytes) :
  sethash.Timestamp (sethash.NewBlock now data prev) = now /\
  sethash.Data (sethash.NewBlock now data prev) = bytes_of_string data /\
  sethash.PrevBlockHash (sethash.NewBlock now data prev) = prev /\
  sethash.Hash (sethash.NewBlock now data prev)
  = Sum256 (sethash.headers (sethash.NewBlock now data prev)).
Proof.
  unfold sethash.NewBlock. cbv zeta.
  destruct (SetHash_fields (sethash.mkBlock now (bytes_of_string data) prev []))
    as (Ht & Hd & Hp & Hh).
  cbn [sethash.Timestamp sethash.Data sethash.PrevBlockHash] in Ht, Hd, Hp.
  split; [exact Ht|]. split; [exact Hd|]. split; [exact Hp|].
  rewrite Hh. unfold sethash.headers. rewrite Ht, Hd, Hp. reflexivity.
Qed.

Lemma sethash_AddBlock_snoc (now : Z) (data : string) (rest : list sethash.Block)
    (p : sethash.Block) :
  sethash.AddBlock now data (sethash.mkBlockchain (rest ++ [p]))
  = Ok (sethash.mkBlockchain
          ((rest ++ [p]) ++ [sethash.NewBlock now data (sethash.Hash p)])).
Proof.
  unfold sethash.AddBlock. cbn [sethash.Blocks]. rewrite index_last. reflexivity.
Qed.

Lemma sethash_AddBlocks_spec (calls : list (Z * string)) :
  forall rest p,
    chained sethash.PrevBlockHash sethash.Hash (rest ++ [p]) ->
    Forall (fun b => sethash.Hash b = Sum256 (sethash.headers b)) (rest ++ [p]) ->
    exists newer,
      sethash.AddBlocks calls (sethash.mkBlockchain (rest ++ [p]))
      = Ok (sethash.mkBlockchain ((rest ++ [p]) ++ newer)) /\
      chained sethash.PrevBlockHash sethash.Hash ((rest ++ [p]) ++ newer) /\
      Forall (fun b => sethash.Hash b = Sum256 (sethash.headers b))
        ((rest ++ [p]) ++ newer) /\
      sethash.Data <$> newer = bytes_of_string <$> (snd <$> calls) /\
      sethash.Timestamp <$> newer = fst <$> calls.
Proof.
  induction calls as [|[now data] calls IH]; intros rest p Hch Hall.
  - exists []. rewrite app_nil_r. repeat split; try reflexivity; try apply Hch.
    exact Hall.
  - cbn [sethash.AddBlocks]. rewrite sethash_AddBlock_snoc. cbn [mbind outcome_bind].
    destruct (sethash_NewBlock_fields now data (sethash.Hash p)) as (Ht & Hd & Hp & Hh).
    revert Ht Hd Hp Hh.
    generalize (sethash.NewBlock now data (sethash.Hash p)). intros nb Ht Hd Hp Hh.
    destruct (IH (rest ++ [p]) nb (chained_snoc _ _ rest p nb Hch Hp))
      as (newer & Hadd & Hch' & Hall' & Hdata & Hts).
    { apply Forall_app. split; [exact Hall|].
      apply List.Forall_cons; [exact Hh | apply List.Forall_nil]. }
    exists (nb :: newer). rewrite Hadd.
    replace ((rest ++ [p]) ++ nb :: newer) with (((rest ++ [p]) ++ [nb]) ++ newer)
      by (rewrite <- (app_assoc _ [nb] newer); reflexivity).
    split; [reflexivity|]. split; [exact Hch'|]. split; [exact Hall'|].
    cbn [fmap list_fmap fst snd]. rewrite Hd, Ht.
    split; f_equal; assumption.
Qed.

End SetHash.

(** X12. The chain in memory: [NewBlockchain] and then N calls of
    [AddBlock] never index out of range and leave N+1 blocks, oldest first;
    the first is the genesis block and names no previous hash, every other
    names the hash of the block before it, and the blocks carry the data and
    the clock readings of the calls in order. *)
Theorem memory_chain_linked `{Hasher} (now0 : Z) (calls : list (Z * string)) :
  exists bc,
    memory.AddBlocks calls (memory.NewBlockchain now0) = Ok bc /\
    length (memory.Blocks bc) = S (length calls) /\
    memory.Blocks bc !! 0%nat = Some (NewGenesisBlock now0) /\
    chained PrevBlockHash Hash (memory.Blocks bc) /\
    Data <$> memory.Blocks bc
    = bytes_of_string <$> ("Genesis Block"%string :: (snd <$> calls)) /\
    Timestamp <$> memory.Blocks bc = now0 :: (fst <$> calls).
Proof.
  destruct (NewGenesisBlock_fields now0) as (Ht & Hd & Hp).
  unfold memory.NewBlockchain. revert Ht Hd Hp.
  generalize (NewGenesisBlock now0). intros g Ht Hd Hp.
  destruct (memory_AddBlocks_spec calls [] g (chained_one _ _ g Hp))
    as (newer & Hadd & Hch & Hdata & Hts).
  cbn [app] in Hadd, Hch. exists (memory.mkBlockchain (g :: newer)).
  split; [exact Hadd|]. cbn [memory.Blocks].
  split; [|split; [reflexivity|split; [exact Hch|]]].
  - cbn [length]. f_equal.
    rewrite <- (length_fmap Data newer), Hdata, !length_fmap. reflexivity.
  - cbn [fmap list_fmap]. rewrite Hd, Ht. split; f_equal; assumption.
Qed.

(** X13. [AddBlock] on a chain value without blocks panics on the index
    [len(bc.Blocks)-1]; on any other it returns, the blocks it had are as
    they were, and one block follows them, which names the hash of the
    block that was last. *)
Theorem memory_AddBlock_contract `{Hasher} (now : Z) (data : string)
    (bc : memory.Blockchain) :
  (memory.Blocks bc = [] -> memory.AddBlock now data bc = Fatal errIndex) /\
  (forall rest p, memory.Blocks bc = rest ++ [p] ->
     exists nb,
       memory.AddBlock now data bc = Ok (memory.mkBlockchain (memory.Blocks bc ++ [nb])) /\
       PrevBlockHash nb = Hash p /\ Data nb = bytes_of_string data /\
       Timestamp nb = now /\ length (Hash nb) = 32%nat).
Proof.
  destruct bc as [bs]. cbn [memory.Blocks]. split.
  - intros ->. reflexivity.
  - intros rest p ->. exists (NewBlock now data (Hash p)).
    split; [apply memory_AddBlock_snoc|].
    destruct (NewBlock_fields now data (Hash p)) as (Ht & Hd & Hp & _).
    cbv zeta in Ht, Hd, Hp.
    repeat split; try assumption. apply NewBlock_Hash_length.
Qed.

Lemma memory_AddBlock_contract_witness :
  memory.AddBlock (H := sha256_hasher) 1719627623 "First Block" (memory.mkBlockchain [])
  = Fatal errIndex /\
  exists nb,
    memory.AddBlock (H := sha256_hasher) 1719627623 "First Block"
      (memory.mkBlockchain [sample_block])
    = Ok (memory.mkBlockchain [sample_block; nb]) /\
    PrevBlockHash nb = Hash sample_block.
Proof.
  split.
  - apply (memory_AddBlock_contract (H := sha256_hasher) 1719627623 "First Block"
             (memory.mkBlockchain [])).
    reflexivity.
  - destruct (memory_AddBlock_contract (H := sha256_hasher) 1719627623 "First Block"
                (memory.mkBlockchain [sample_block])) as [_ Hsome].
    destruct (Hsome [] sample_block) as (nb & Hadd & Hprev & _).
    + reflexivity.
    + exists nb. split; [exact Hadd | exact Hprev].
Defined.

(** X14. The database keeps the chain the version in memory holds: for
    the same clock readings and data, the blocks the walk returns from a
    new database are the blocks of the slice, newest first, as long as no
    two hashes coincide. *)
Theorem persisted_walk_is_memory_chain `{Hasher} (now0 : Z) (calls : list (Z * string))
    (db : bolt.DB) :
  db !! blocksBucket = None -> int64 now0 -> Forall call_ok calls ->
  NoDup (Hash <$> chain now0 calls) ->
  exists bc db' blocks mem,
    build now0 calls db = Ok (bc, db') /\
    Nexts (S (length calls)) (Iterator bc) db' = Ok blocks /\
    memory.AddBlocks calls (memory.NewBlockchain now0) = Ok mem /\
    blocks = rev (memory.Blocks mem).
Proof.
  intros Hnone Hnow Hcalls Hnd.
  destruct (build_walk now0 calls db Hnone Hnow Hcalls Hnd)
    as (bc & db' & bucket & Hbuild & _ & _ & _ & _ & Hwalk).
  exists bc, db', (chain now0 calls), (memory.mkBlockchain (rev (chain now0 calls))).
  split; [assumption|]. split; [assumption|]. split.
  - unfold memory.NewBlockchain, chain.
    change [NewGenesisBlock now0] with (rev [NewGenesisBlock now0]) at 1.
    apply memory_AddBlocks_chain. discriminate.
  - cbn [memory.Blocks]. rewrite rev_involutive. reflexivity.
Qed.

Lemma persisted_walk_is_memory_chain_witness :
  exists bc db' blocks mem,
    build (H := sha256_hasher) 1710872070 demo_calls ∅ = Ok (bc, db') /\
    Nexts 4 (Iterator bc) db' = Ok blocks /\
    memory.AddBlocks (H := sha256_hasher) demo_calls
      (memory.NewBlockchain (H := sha256_hasher) 1710872070) = Ok mem /\
    blocks = rev (memory.Blocks mem).
Proof.
  apply (persisted_walk_is_memory_chain (H := sha256_hasher) 1710872070 demo_calls ∅).
  - reflexivity.
  - vm_compute. split; discriminate.
  - repeat (apply List.Forall_cons; [vm_compute; split; [split; discriminate | reflexivity]|]).
    apply List.Forall_nil.
  - apply (bool_decide_unpack _). vm_compute. exact I.
Defined.

(** X15. The first version, with [SetHash]: [NewBlockchain] and then N
    calls of [AddBlock] never index out of range and leave N+1 blocks,
    oldest first; the first names no previous hash, every other names the
    hash of the block before it, every block carries the digest, 32 bytes,
    of its previous hash, its data and the decimal numeral of its clock
    reading put end to end, and the data and clock readings are those of the
    calls in order. *)
Theorem sethash_chain_linked `{Hasher} (now0 : Z) (calls : list (Z * string)) :
  exists bc,
    sethash.AddBlocks calls (sethash.NewBlockchain now0) = Ok bc /\
    length (sethash.Blocks bc) = S (length calls) /\
    chained sethash.PrevBlockHash sethash.Hash (sethash.Blocks bc) /\
    Forall (fun b =>
              sethash.Hash b
              = Sum256 (sethash.PrevBlockHash b ++ sethash.Data b
                          ++ bytes_of_string (strconv.FormatInt (sethash.Timestamp b))) /\
              length (sethash.Hash b) = 32%nat)
      (sethash.Blocks bc) /\
    sethash.Data <$> sethash.Blocks bc
    = bytes_of_string <$> ("Genesis Block"%string :: (snd <$> calls)) /\
    sethash.Timestamp <$> sethash.Blocks bc = now0 :: (fst <$> calls).
Proof.
  destruct (sethash_NewBlock_fields now0 "Genesis Block" []) as (Ht & Hd & Hp & Hh).
  unfold sethash.NewBlockchain, sethash.NewGenesisBlock. revert Ht Hd Hp Hh.
  generalize (sethash.NewBlock now0 "Genesis Block" []). intros g Ht Hd Hp Hh.
  destruct (sethash_AddBlocks_spec calls [] g (chained_one _ _ g Hp))
    as (newer & Hadd & Hch & Hall & Hdata & Hts).
  { apply List.Forall_cons; [exact Hh | apply List.Forall_nil]. }
  cbn [app] in Hadd, Hch, Hall. exists (sethash.mkBlockchain (g :: newer)).
  split; [exact Hadd|]. cbn [sethash.Blocks].
  split; [|split; [exact Hch|split]].
  - cbn [length]. f_equal.
    rewrite <- (length_fmap sethash.Data newer), Hdata, !length_fmap. reflexivity.
  - eapply Forall_impl; [exact Hall|]. intros b Hb. cbv beta in Hb.
    split; [exact Hb|]. rewrite Hb. apply Sum256_size.
  - cbn [fmap list_fmap]. rewrite Hd, Ht. split; f_equal; assumption.
Qed.

(** ** Reading back what was written *)


(** X16. What [AddBlock] wrote, [Next] reads back: on the database and
    the handle a call of [AddBlock] returned, the first [Next] of a new
    iterator returns the block of that call, and leaves the iterator at the
    tip pointer the call found. *)
Theorem AddBlock_then_Next `{Hasher} (now : Z) (data : string) (bc bc' : Blockchain)
    (db db' : bolt.DB) :
  int64 now -> AddBlock now data bc db = Ok (bc', db') ->
  exists bucket block,
    db !! blocksBucket = Some bucket /\
    block = NewBlock now data (bolt.Get bucket (bytes_of_string "l")) /\
    Next (Iterator bc') db' = Ok (block, mkIterator (bolt.Get bucket (bytes_of_string "l"))) /\
    Timestamp block = now /\ Data block = bytes_of_string data /\
    PrevBlockHash block = bolt.Get bucket (bytes_of_string "l").
Proof.
  intros Hnow Hadd.
  destruct (AddBlock_Ok now data bc bc' db db' Hadd)
    as (bucket & encoded & Hbucket & Hser & _ & -> & ->).
  exists bucket, (NewBlock now data (bolt.Get bucket (bytes_of_string "l"))).
  split; [exact Hbucket|]. split; [reflexivity|].
  pose proof (NewBlock_well_typed now data (bolt.Get bucket (bytes_of_string "l")) Hnow)
    as Hwt.
  pose proof (NewBlock_Hash_length now data (bolt.Get bucket (bytes_of_string "l")))
    as Hlen.
  destruct (NewBlock_fields now data (bolt.Get bucket (bytes_of_string "l")))
    as (Ht & Hd & Hp & _).
  cbv zeta in Ht, Hd, Hp. revert Hser Hwt Hlen Ht Hd Hp.
  generalize (NewBlock now data (bolt.Get bucket (bytes_of_string "l"))).
  intros nb Hser Hwt Hlen Ht Hd Hp.
  split; [|split; [exact Ht|split; [exact Hd|exact Hp]]].
  unfold Iterator. cbn [tip]. rewrite <- Hp.
  apply (Next_record (mkIterator (Hash nb)) _
           (<[bytes_of_string "l" := Hash nb]> (<[Hash nb := encoded]> bucket)) encoded nb).
  - apply lookup_insert_eq.
  - cbn [currentHash].
    rewrite lookup_insert_ne by (intros Heq; rewrite <- Heq in Hlen; discriminate).
    apply lookup_insert_eq.
  - exact (DeseralizeBlock_Serialize nb encoded Hwt Hser).
Qed.

Lemma AddBlock_then_Next_witness :
  exists bc' db' block i,
    AddBlock (H := sha256_hasher) 1719627623 "First Block" genesis_bc genesis_db
    = Ok (bc', db') /\
    Next (Iterator bc') db' = Ok (block, i) /\
    Data block = bytes_of_string "First Block".
Proof.
  assert (Hret : exists r,
             AddBlock (H := sha256_hasher) 1719627623 "First Block" genesis_bc genesis_db
             = Ok r)
    by (apply is_Ok_true; vm_compute; reflexivity).
  destruct Hret as [[bc' db'] Hadd].
  destruct (AddBlock_then_Next (H := sha256_hasher) 1719627623 "First Block"
              genesis_bc bc' genesis_db db')
    as (bucket & block & _ & _ & Hnext & _ & Hdata & _).
  - vm_compute. split; discriminate.
  - exact Hadd.
  - exists bc', db', block, (mkIterator (bolt.Get bucket (bytes_of_string "l"))).
    split; [exact Hadd|]. split; [exact Hnext | exact Hdata].
Defined.

(** X17. The hash of a block whose search ended below [math.MaxInt64]
    starts with three zero bytes: printed with [%x] it starts with six
    zeros, and 29 bytes follow. *)
Theorem mined_hash_leading_zeros `{Hasher} (now : Z) (data : string) (prev : bytes) :
  Nonce (NewBlock now data prev) < maxNonce ->
  exists rest,
    Hash (NewBlock now data prev) = [x00; x00; x00] ++ rest /\
    length rest = 29%nat /\
    hex (Hash (NewBlock now data prev)) = ("000000" ++ hex rest)%string.
Proof.
  intros Hfound.
  destruct (NewBlock_found now data prev Hfound) as [Hbelow Hhash].
  pose proof (NewBlock_Hash_length now data prev) as Hlen.
  apply below_target_lt in Hbelow. rewrite <- Hhash in Hbelow.
  change (target (NewProofOfWork (NewBlock now data prev))) with (2 ^ 232) in Hbelow.
  revert Hbelow Hlen. generalize (Hash (NewBlock now data prev)). intros h Hbelow Hlen.
  apply (be_uint_leading_zeros h Hlen) in Hbelow.
  destruct h as [|c0 [|c1 [|c2 rest]]]; try discriminate.
  cbn [take] in Hbelow. injection Hbelow as -> -> ->.
  exists rest. split; [reflexivity|]. split; [cbn [length] in Hlen; lia | reflexivity].
Qed.

Lemma mined_hash_leading_zeros_witness :
  exists rest,
    Hash (NewBlock (H := sha256_hasher) 1710872070 "Genesis Block" [])
    = [x00; x00; x00] ++ rest /\
    length rest = 29%nat.
Proof.
  destruct (mined_hash_leading_zeros (H := sha256_hasher) 1710872070 "Genesis Block" [])
    as (rest & Hh & Hl & _).
  - vm_compute. reflexivity.
  - exists rest. split; assumption.
Defined.


Lemma chain_snoc `{Hasher} (now0 : Z) (calls : list (Z * string)) (call : Z * string) :
  chain now0 (calls ++ [call]) = extend (chain now0 calls) call.
Proof. unfold chain. rewrite foldl_app. reflexivity. Qed.

Lemma chain_nonempty `{Hasher} (now0 : Z) (calls : list (Z * string)) :
  chain now0 calls <> [].
Proof.
  intros Hnil. pose proof (length_chain now0 calls) as Hlen.
  rewrite Hnil in Hlen. discriminate.
Qed.

(** X18. A walk from an older handle is not disturbed by [AddBlock]:
    after one more call, the iterator of the handle from before the call
    still returns the chain as it was, and the iterator of the new handle
    returns that chain behind the new block (no two hashes coinciding). *)
Theorem AddBlock_keeps_older_walks `{Hasher} (now0 : Z) (calls : list (Z * string))
    (now : Z) (data : string) (db : bolt.DB) :
  db !! blocksBucket = None -> int64 now0 -> Forall call_ok calls ->
  call_ok (now, data) ->
  NoDup (Hash <$> chain now0 (calls ++ [(now, data)])) ->
  exists bc db1 bc2 db2,
    build now0 calls db = Ok (bc, db1) /\
    AddBlock now data bc db1 = Ok (bc2, db2) /\
    Nexts (S (length calls)) (Iterator bc) db2 = Ok (chain now0 calls) /\
    Nexts (S (S (length calls))) (Iterator bc2) db2
    = Ok (NewBlock now data (tip bc) :: chain now0 calls).
Proof.
  intros Hnone Hnow Hcalls Hcall Hnd.
  rewrite chain_snoc in Hnd. unfold extend in Hnd at 1.
  cbn [fmap list_fmap fst snd] in Hnd. apply NoDup_cons in Hnd as [Hfresh Hnd].
  destruct (build_returns now0 calls db Hnone Hnow Hcalls) as (bc & db1 & Hbuild).
  destruct (stored_build now0 calls db db1 bc Hnone Hnow Hbuild Hnd) as [Hstored Htip].
  pose proof (hashes_ok_chain now0 calls) as Hok.
  pose proof (linked_chain now0 calls) as Hlinked.
  pose proof (length_chain now0 calls) as Hlen.
  pose proof (chain_nonempty now0 calls) as Hne.
  assert (Hwt : Forall well_typed (chain now0 calls)).
  { apply well_typed_chain; [assumption|].
    eapply Forall_impl; [exact Hcalls|]. intros call [Hc _]. exact Hc. }
  assert (Hready : ready db1).
  { destruct Hstored as (bucket & Hbucket & Hl & _).
    exists bucket, (tip_of (chain now0 calls)). split; [exact Hbucket|].
    split; [exact Hl|].
    destruct (chain now0 calls) as [|b rest]; [congruence|].
    cbn [tip_of]. unfold hashes_ok in Hok. inversion Hok; assumption. }
  destruct (AddBlock_returns now data bc db1 Hready Hcall) as (bc2 & db2 & Hadd & _).
  destruct (stored_extend now data bc bc2 db1 db2 (chain now0 calls) Hstored Hok Hadd
              Hfresh) as [(bucket2 & Hbucket2 & _ & Hrecs2) Htip2].
  assert (Hwtnb : well_typed (NewBlock now data (tip_of (chain now0 calls)))).
  { apply NewBlock_well_typed. apply Hcall. }
  exists bc, db1, bc2, db2. split; [exact Hbuild|]. split; [exact Hadd|]. split.
  - unfold Iterator. rewrite Htip, <- Hlen.
    apply (Nexts_stored db2 bucket2); try assumption.
    intros b Hb. apply Hrecs2. unfold extend. apply list_elem_of_further. exact Hb.
  - unfold Iterator. rewrite Htip2, Htip, <- Hlen.
    change (S (length (chain now0 calls)))
      with (length (extend (chain now0 calls) (now, data))).
    change (NewBlock now data (tip_of (chain now0 calls)) :: chain now0 calls)
      with (extend (chain now0 calls) (now, data)).
    apply (Nexts_stored db2 bucket2); try assumption.
    + apply linked_extend; assumption.
    + unfold extend. apply List.Forall_cons; assumption.
Qed.

Lemma AddBlock_keeps_older_walks_witness :
  exists bc db1 bc2 db2,
    build (H := sha256_hasher) 1710872070
      [ (1719627623, "First Block"%string); (1723916534, "Second Block"%string) ] ∅
    = Ok (bc, db1) /\
    AddBlock (H := sha256_hasher) 1726103277 "Third Block" bc db1 = Ok (bc2, db2) /\
    Nexts 3 (Iterator bc) db2
    = Ok (chain (H := sha256_hasher) 1710872070
            [ (1719627623, "First Block"%string); (1723916534, "Second Block"%string) ]).
Proof.
  destruct (AddBlock_keeps_older_walks (H := sha256_hasher) 1710872070
              [ (1719627623, "First Block"%string); (1723916534, "Second Block"%string) ]
              1726103277 "Third Block" ∅)
    as (bc & db1 & bc2 & db2 & Hbuild & Hadd & Hold & _).
  - reflexivity.
  - vm_compute. split; discriminate.
  - repeat (apply List.Forall_cons; [vm_compute; split; [split; discriminate | reflexivity]|]).
    apply List.Forall_nil.
  - vm_compute. split; [split; discriminate | reflexivity].
  - apply (bool_decide_unpack _). vm_compute. exact I.
  - exists bc, db1, bc2, db2. split; [exact Hbuild|]. split; [exact Hadd | exact Hold].
Defined.
